(** * MPPI controller for a differential drive robot

    A shallow embedding of [mppi_differential_drive.ipynb]: the class
    [MPPIControllerForDifferentialDrive] (the solver) and the part of
    [DifferentialDriveRobot] that applies a control to the plant.

    Conventions of the embedding:
    - [np.float64] arithmetic is read over the real numbers [R];
    - a Python exception is a value of [exn], a method that may raise
      returns a [result];
    - the draw of [np.random.multivariate_normal] is an argument of the
      call ([draw k t] is the 2-vector drawn for sample [k], step [t]);
    - numpy arrays that are mutated through several names live in a
      [heap]; a name is a location, a row view is a location and an index. *)

From Stdlib Require Import Reals Lra Lia ZArith List Bool Arith.
Import ListNotations.

Open Scope R_scope.

(** ** Exceptions and fallible code *)

Inductive exn : Type :=
| ValueError
| IndexError
| ZeroDivisionError
| LinAlgError
| AttributeError.

Inductive result (A : Type) : Type :=
| Ok (a : A)
| Raise (e : exn).

Arguments Ok {A} a.
Arguments Raise {A} e.

Definition bind {A B : Type} (m : result A) (f : A -> result B) : result B :=
  match m with
  | Ok a => f a
  | Raise e => Raise e
  end.

Notation "x <- m ;; k" := (bind m (fun x => k))
  (at level 61, m at next level, right associativity).
Notation "' pat <- m ;; k" := (bind m (fun x => match x with pat => k end))
  (at level 61, pat pattern, m at next level, right associativity).

(** A [for] loop whose body may raise: the state is threaded through the
    iterations in order and the first exception ends the loop. *)
Fixpoint for_each {A St : Type} (body : St -> A -> result St)
         (st : St) (items : list A) : result St :=
  match items with
  | [] => Ok st
  | a :: rest => st' <- body st a ;; for_each body st' rest
  end.

(** ** Vectors, arrays and numpy primitives *)

Definition Vec2 : Type := (R * R)%type.
Definition Vec3 : Type := (R * R * R)%type.

Definition vadd (a b : Vec2) : Vec2 := (fst a + fst b, snd a + snd b).
Definition vscale (c : R) (a : Vec2) : Vec2 := (c * fst a, c * snd a).
Definition vzero : Vec2 := (0, 0).

(** [a[i]] for a non-negative index: [IndexError] out of range. *)
Definition getitem {A : Type} (a : list A) (i : nat) : result A :=
  match nth_error a i with
  | Some x => Ok x
  | None => Raise IndexError
  end.

(** [a[-i]] for [i >= 1]: the index [len(a) - i], [IndexError] when
    [i > len(a)]. *)
Definition neg_index {A : Type} (a : list A) (i : nat) : result nat :=
  if (i <=? length a)%nat then Ok (length a - i)%nat else Raise IndexError.

(** [a[i] = x] on a list, nothing changed out of range (callers check). *)
Fixpoint set_nth {A : Type} (a : list A) (i : nat) (x : A) : list A :=
  match a, i with
  | [], _ => []
  | _ :: rest, O => x :: rest
  | y :: rest, S i' => y :: set_nth rest i' x
  end.

(** [np.clip(x, lo, hi)] is [minimum(maximum(x, lo), hi)]. *)
Definition np_clip (x lo hi : R) : R := Rmin (Rmax x lo) hi.

(** [x % m] on floats, for [m <> 0]: [x - m * floor(x / m)]. *)
Definition py_mod (x m : R) : R := x - m * IZR (Int_part (x / m)).

(** [a.min()]: [ValueError] on an empty array. *)
Definition np_min (a : list R) : result R :=
  match a with
  | [] => Raise ValueError
  | x :: rest => Ok (fold_left Rmin rest x)
  end.

(** A two-dimensional array with its shape. *)
Record Matrix : Type := mkMatrix {
  shape0 : nat;
  shape1 : nat;
  entry : nat -> nat -> R
}.

Definition matrix2 (a b c d : R) : Matrix :=
  mkMatrix 2 2 (fun i j =>
    match i, j with
    | O, O => a
    | O, _ => b
    | _, O => c
    | _, _ => d
    end).

(** [np.linalg.inv] on the shapes that reach it: [_calc_epsilon] has
    already rejected every covariance that is not 2 x 2, so only that
    case is given by its formula (adjugate over determinant); a singular
    matrix raises [LinAlgError], as does any other shape here. *)
Definition np_linalg_inv (m : Matrix) : result Matrix :=
  if negb ((shape0 m =? 2)%nat && (shape1 m =? 2)%nat) then Raise LinAlgError
  else
    let a := entry m 0 0 in
    let b := entry m 0 1 in
    let c := entry m 1 0 in
    let d := entry m 1 1 in
    let det := a * d - b * c in
    if Req_dec_T det 0 then Raise LinAlgError
    else Ok (matrix2 (d / det) (- b / det) (- c / det) (a / det)).

(** [r @ M] for a row 2-vector and [r @ v] for two 2-vectors. *)
Definition row_matmul (r : Vec2) (m : Matrix) : Vec2 :=
  (fst r * entry m 0 0 + snd r * entry m 1 0,
   fst r * entry m 0 1 + snd r * entry m 1 1).

Definition dot (a b : Vec2) : R := fst a * fst b + snd a * snd b.

(** ** The heap of shared arrays *)

Definition loc : Type := nat.
Definition heap : Type := list (list Vec2).

Definition read (h : heap) (l : loc) : list Vec2 := nth l h [].
Definition write (h : heap) (l : loc) (a : list Vec2) : heap := set_nth h l a.
Definition alloc (h : heap) (a : list Vec2) : loc * heap :=
  (length h, h ++ [a]).

(** A row view [a[i]] of the array at a location. *)
Definition view : Type := (loc * nat)%type.
Definition read_view (h : heap) (v : view) : Vec2 :=
  nth (snd v) (read h (fst v)) vzero.

(** ** The solver object *)

Record MPPIControllerForDifferentialDrive : Type := mkController {
  dim_x : nat;
  dim_u : nat;
  T : Z;
  K : Z;
  param_exploration : R;
  param_lambda : R;
  param_alpha : R;
  param_gamma : R;
  Sigma : Matrix;
  stage_cost_weight : list R;
  terminal_cost_weight : list R;
  visualize_optimal_traj : bool;
  visualze_sampled_trajs : bool;
  delta_t : R;
  wheel_base : R;
  robot_w : R;
  robot_l : R;
  max_linear_vel : R;
  max_angular_vel : R;
  goal : Vec3;
  obstacle_circles : list Vec3;
  collision_safety_margin_rate : R;
  u_prev : loc
}.

(** The arguments of the constructor. *)
Record Config : Type := mkConfig {
  cfg_delta_t : R;
  cfg_wheel_base : R;
  cfg_robot_width : R;
  cfg_robot_length : R;
  cfg_max_linear_vel : R;
  cfg_max_angular_vel : R;
  cfg_goal : Vec3;
  cfg_horizon_step_T : Z;
  cfg_number_of_samples_K : Z;
  cfg_param_exploration : R;
  cfg_param_lambda : R;
  cfg_param_alpha : R;
  cfg_sigma : Matrix;
  cfg_stage_cost_weight : list R;
  cfg_terminal_cost_weight : list R;
  cfg_visualize_optimal_traj : bool;
  cfg_visualze_sampled_trajs : bool;
  cfg_obstacle_circles : list Vec3;
  cfg_collision_safety_margin_rate : R
}.

(** [np.zeros((n, 2))]: [ValueError] for a negative dimension. *)
Definition np_zeros2 (n : Z) : result (list Vec2) :=
  if (n <? 0)%Z then Raise ValueError else Ok (repeat vzero (Z.to_nat n)).

(** [__init__]: stores its arguments and allocates the warm-start buffer
    [u_prev]; the only statement that can raise is [np.zeros]. *)
Definition __init__ (c : Config) (h : heap)
  : result (MPPIControllerForDifferentialDrive * heap) :=
  buf <- np_zeros2 (cfg_horizon_step_T c) ;;
  let '(l, h') := alloc h buf in
  Ok (mkController 3 2
        (cfg_horizon_step_T c) (cfg_number_of_samples_K c)
        (cfg_param_exploration c) (cfg_param_lambda c) (cfg_param_alpha c)
        (cfg_param_lambda c * (1 - cfg_param_alpha c))
        (cfg_sigma c)
        (cfg_stage_cost_weight c) (cfg_terminal_cost_weight c)
        (cfg_visualize_optimal_traj c) (cfg_visualze_sampled_trajs c)
        (cfg_delta_t c) (cfg_wheel_base c)
        (cfg_robot_width c) (cfg_robot_length c)
        (cfg_max_linear_vel c) (cfg_max_angular_vel c)
        (cfg_goal c)
        (cfg_obstacle_circles c) (cfg_collision_safety_margin_rate c)
        l,
      h').

(** ** Methods of the solver *)

Section Methods.

Variable self : MPPIControllerForDifferentialDrive.

(** [_calc_epsilon]: the shape check on [sigma], then the draw.
    [np.random.multivariate_normal] only warns on a covariance that is not
    positive semi-definite; it raises on a negative size. *)
Definition _calc_epsilon (sigma : Matrix) (size_sample size_time_step : Z)
           (size_dim_u : nat) (draw : nat -> nat -> Vec2)
  : result (nat -> nat -> Vec2) :=
  if negb (shape0 sigma =? shape1 sigma)%nat
     || negb (shape0 sigma =? size_dim_u)%nat
     || (size_dim_u <? 1)%nat
  then Raise ValueError
  else if ((size_sample <? 0) || (size_time_step <? 0))%Z then Raise ValueError
  else Ok draw.

(** [_g]: saturation of a control. It writes into its argument, so the
    caller's array holds the result; callers below store it. *)
Definition _g (v : Vec2) : Vec2 :=
  (np_clip (fst v) (- max_linear_vel self) (max_linear_vel self),
   np_clip (snd v) (- max_angular_vel self) (max_angular_vel self)).

(** The heading error of [_c] and [_phi], written inline in both. *)
Definition yaw_error (yaw gyaw : R) : R :=
  py_mod (yaw - gyaw + PI) (2 * PI) - PI.

(** [_c]: the stage cost of a rollout state. *)
Definition _c (x_t : Vec3) : result R :=
  let '(x, y, yaw) := x_t in
  let '(gx, gy, gyaw) := goal self in
  let yaw_error := yaw_error yaw gyaw in
  w0 <- getitem (stage_cost_weight self) 0 ;;
  w1 <- getitem (stage_cost_weight self) 1 ;;
  w2 <- getitem (stage_cost_weight self) 2 ;;
  Ok (w0 * (x - gx) ^ 2 + w1 * (y - gy) ^ 2 + w2 * yaw_error ^ 2).

(** [_phi]: the terminal cost of the last rollout state. *)
Definition _phi (x_T : Vec3) : result R :=
  let '(x, y, yaw) := x_T in
  let '(gx, gy, gyaw) := goal self in
  let yaw_error := yaw_error yaw gyaw in
  w0 <- getitem (terminal_cost_weight self) 0 ;;
  w1 <- getitem (terminal_cost_weight self) 1 ;;
  w2 <- getitem (terminal_cost_weight self) 2 ;;
  Ok (w0 * (x - gx) ^ 2 + w1 * (y - gy) ^ 2 + w2 * yaw_error ^ 2).

(** [_F]: one step of the differential drive kinematics. *)
Definition _F (x_t : Vec3) (v_t : Vec2) : Vec3 :=
  let '(x, y, yaw) := x_t in
  let '(v, w) := v_t in
  let dt := delta_t self in
  (x + v * cos yaw * dt, y + v * sin yaw * dt, yaw + w * dt).


(** [range(n)] for an integer [n]: empty when [n <= 0]. *)
Definition range (n : Z) : list nat := seq 0 (Z.to_nat n).

(** [np.zeros((n))]: only its failure on a negative size matters to the
    callers, which fill every entry afterwards. *)
Definition np_zeros1 (n : Z) : result (list R) :=
  if (n <? 0)%Z then Raise ValueError else Ok (repeat 0 (Z.to_nat n)).

(** [_compute_weights]: the weights of the samples from their costs [S]. *)
Definition _compute_weights (S : list R) : result (list R) :=
  _ <- np_zeros1 (K self) ;;
  rho <- np_min S ;;
  eta <- for_each (fun eta k =>
           c <- (if Req_dec_T (param_lambda self) 0
                 then Raise ZeroDivisionError
                 else Ok (- 1 / param_lambda self)) ;;
           Sk <- getitem S k ;;
           Ok (eta + exp (c * (Sk - rho))))
         0 (range (K self)) ;;
  for_each (fun w k =>
     c <- (if Req_dec_T (param_lambda self) 0
           then Raise ZeroDivisionError
           else Ok (- 1 / param_lambda self)) ;;
     Sk <- getitem S k ;;
     Ok (w ++ [(1 / eta) * exp (c * (Sk - rho))]))
    [] (range (K self)).

(** [np.convolve(a, v, mode="same")]: the longer argument comes first, the
    result has its length, and entry [k] sums the products of the taps
    [a[k - n_left + j] * v[n - 1 - j]] that fall inside [a] (a tap outside
    contributes nothing), where [n = len(v)] and [n_left = n // 2]. Empty
    arguments raise. *)
Definition np_convolve_same (a v : list R) : result (list R) :=
  match a, v with
  | [], _ => Raise ValueError
  | _, [] => Raise ValueError
  | _, _ =>
      let '(a, v) := if (length a <? length v)%nat then (v, a) else (a, v) in
      let n := length v in
      let n_left := (n / 2)%nat in
      Ok (map (fun k =>
                 fold_left (fun acc j =>
                    acc +
                    (if ((n_left <=? k + j) && (k + j - n_left <? length a))%nat
                     then nth (k + j - n_left) a 0 * nth (n - 1 - j) v 0
                     else 0))
                   (seq 0 n) 0)
              (seq 0 (length a)))
  end.

(** [xx_mean[i, d] *= c] on one column. *)
Definition scale_at (col : list R) (i : nat) (c : R) : result (list R) :=
  x <- getitem col i ;;
  Ok (set_nth col i (x * c)).

(** The body of the loop over [d] in [_moving_average_filter], on the
    column [xx[:, d]]: convolution with the box window, assignment to
    [xx_mean[:, d]] (the two lengths must agree), and the rescaling of
    the entries near both ends. *)
Definition filter_column (col : list R) (window_size : nat)
  : result (list R) :=
  let b := repeat (1 / INR window_size) window_size in
  conv <- np_convolve_same col b ;;
  xx_mean <- (if (length conv =? length col)%nat
              then Ok conv else Raise ValueError) ;;
  let n_conv := ((window_size + 1) / 2)%nat in
  xx_mean <- scale_at xx_mean 0 (INR window_size / INR n_conv) ;;
  for_each (fun xx_mean i =>
     xx_mean <- scale_at xx_mean i (INR window_size / INR (i + n_conv)) ;;
     j <- neg_index xx_mean i ;;
     scale_at xx_mean j
       (INR window_size / INR (i + n_conv - window_size mod 2)))
    xx_mean (seq 1 (n_conv - 1)).

(** [_moving_average_filter] on an array of 2-vectors ([dim = 2]). *)
Definition _moving_average_filter (xx : list Vec2) (window_size : nat)
  : result (list Vec2) :=
  c0 <- filter_column (map fst xx) window_size ;;
  c1 <- filter_column (map snd xx) window_size ;;
  Ok (combine c0 c1).

(** One iteration of the loop over [t] for sample [k]: the state of the
    loop is the rollout state [x], the cost [S[k]] and the row [v[k]]
    filled so far. [u[t-1]] is read first here; in the exploration branch
    the source reads it after [_c], and both raise [IndexError]. *)
Definition rollout_step (u : list Vec2) (epsilon : nat -> nat -> Vec2)
           (k : nat) (st : Vec3 * R * list Vec2) (t : nat)
  : result (Vec3 * R * list Vec2) :=
  let '(x, Sk, vk) := st in
  ut <- getitem u (t - 1) ;;
  let vkt :=
    if Rlt_dec (INR k) ((1 - param_exploration self) * IZR (K self))
    then vadd ut (epsilon k (t - 1)%nat)
    else epsilon k (t - 1)%nat in
  let vkt := _g vkt in
  let x := _F x vkt in
  c <- _c x ;;
  Sigma_inv <- np_linalg_inv (Sigma self) ;;
  Ok (x,
      Sk + (c + dot (row_matmul (vscale (param_gamma self) ut) Sigma_inv) vkt),
      vk ++ [vkt]).

(** The body of the loop over [k]: the rollout of sample [k] and its cost. *)
Definition rollout (u : list Vec2) (epsilon : nat -> nat -> Vec2)
           (x0 : Vec3) (k : nat) : result (R * list Vec2) :=
  '(x, Sk, vk) <- for_each (rollout_step u epsilon k) (x0, 0, [])
                    (seq 1 (Z.to_nat (T self))) ;;
  p <- _phi x ;;
  Ok (Sk + p, vk).

Definition rollouts (u : list Vec2) (epsilon : nat -> nat -> Vec2)
           (x0 : Vec3) : result (list R * list (list Vec2)) :=
  for_each (fun Sv k =>
     '(Sk, vk) <- rollout u epsilon x0 k ;;
     Ok (fst Sv ++ [Sk], snd Sv ++ [vk]))
    ([], []) (range (K self)).

(** [w_epsilon[t] += w[k] * epsilon[k, t]] over [t] and [k]; [w] has
    [K] entries, so [w[k]] is in range. *)
Definition weighted_noise (w : list R) (epsilon : nat -> nat -> Vec2)
  : list Vec2 :=
  map (fun t =>
         fold_left (fun acc k => vadd acc (vscale (nth k w 0) (epsilon k t)))
                   (range (K self)) vzero)
      (range (T self)).

(** [calc_control_input] from its first line to the smoothing: the costs
    [S] (here [costs]), the saturated perturbed controls [v] and the smoothed
    [w_epsilon]. [u] is the content of the array [self.u_prev], which
    these lines only read. *)
Definition smoothed_perturbation (draw : nat -> nat -> Vec2) (x0 : Vec3)
           (u : list Vec2)
  : result (list R * list (list Vec2) * list Vec2) :=
  _ <- np_zeros1 (K self) ;;
  epsilon <- _calc_epsilon (Sigma self) (K self) (T self) (dim_u self) draw ;;
  '(costs, v) <- rollouts u epsilon x0 ;;
  w <- _compute_weights costs ;;
  let w_epsilon := weighted_noise w epsilon in
  w_epsilon <- _moving_average_filter w_epsilon 10 ;;
  Ok (costs, v, w_epsilon).

(** What [calc_control_input] returns: [u[0]] is a row view of the array
    [u] and [u] is the array itself, both by reference; the two
    trajectory arrays are fresh. *)
Record Output : Type := mkOutput {
  action : view;
  sequence : loc;
  optimal_traj : list Vec3;
  sampled_traj_list : list (list Vec3)
}.

(** [a += b] on arrays of one shape. *)
Definition iadd (a b : list Vec2) : result (list Vec2) :=
  if (length a =? length b)%nat
  then Ok (map (fun p => vadd (fst p) (snd p)) (combine a b))
  else Raise ValueError.

(** [target[:-1] = src]: the first entries of [target] are overwritten,
    the shapes must agree. *)
Definition assign_init (target src : list Vec2) : result (list Vec2) :=
  if (length src =? length target - 1)%nat
  then Ok (src ++ skipn (length src) target)
  else Raise ValueError.

(** The loop that fills [optimal_traj]: [self._g(u[t])] saturates the row
    [u[t]] of the shared array in place. *)
Definition optimal_step (u : loc) (st : Vec3 * list Vec3 * heap) (t : nat)
  : result (Vec3 * list Vec3 * heap) :=
  let '(x, traj, h) := st in
  ut <- getitem (read h u) t ;;
  let ut := _g ut in
  let h := write h u (set_nth (read h u) t ut) in
  let x := _F x ut in
  Ok (x, traj ++ [x], h).

(** The trajectory of sample [k], from the row [v[k]]. *)
Definition sampled_traj (x0 : Vec3) (vk : list Vec2) : list Vec3 :=
  snd (fold_left (fun st vkt =>
                    let x := _F (fst st) (_g vkt) in (x, snd st ++ [x]))
                 vk (x0, [])).

(** [calc_control_input]. [u = self.u_prev] makes [u] a second name of
    the warm-start buffer: the update [u += w_epsilon], the saturation in
    the optimal trajectory loop and the final shift all act on that one
    array, and the returned [u[0]] and [u] refer to it.
    The loop over [sorted_idx] fills slot [k] of [sampled_traj_list] with
    the trajectory of sample [k], whatever the order of the indices. *)
Definition calc_control_input (draw : nat -> nat -> Vec2)
           (observed_x : Vec3) (h : heap) : result (Output * heap) :=
  let u := u_prev self in
  let x0 := observed_x in
  '(costs, v, w_epsilon) <- smoothed_perturbation draw x0 (read h u) ;;
  updated <- iadd (read h u) w_epsilon ;;
  let h := write h u updated in
  '(optimal_traj, h) <-
    (if visualize_optimal_traj self
     then
       '(_, traj, h) <- for_each (optimal_step u) (x0, [], h)
                          (range (T self)) ;;
       Ok (traj, h)
     else Ok (repeat (0, 0, 0) (Z.to_nat (T self)), h)) ;;
  let sampled_traj_list :=
    if visualze_sampled_trajs self
    then map (sampled_traj x0) v
    else repeat (repeat (0, 0, 0) (Z.to_nat (T self))) (Z.to_nat (K self)) in
  shifted <- assign_init (read h (u_prev self)) (tl (read h u)) ;;
  let h := write h (u_prev self) shifted in
  i <- neg_index (read h (u_prev self)) 1 ;;
  j <- neg_index (read h u) 1 ;;
  last <- getitem (read h u) j ;;
  let h := write h (u_prev self) (set_nth (read h (u_prev self)) i last) in
  _ <- getitem (read h u) 0 ;;
  Ok (mkOutput (u, 0%nat) u optimal_traj sampled_traj_list, h).

(** [_affine_transform]: rotation by [angle] then translation, with the
    first point repeated at the end. *)
Definition _affine_transform (xlist ylist : list R) (angle : R)
           (translation : R * R) : result (list R * list R) :=
  if negb (length xlist =? length ylist)%nat then Raise AttributeError
  else
    let transformed_x :=
      map (fun i => nth i xlist 0 * cos angle - nth i ylist 0 * sin angle
                    + fst translation)
          (seq 0 (length xlist)) in
    let transformed_y :=
      map (fun i => nth i xlist 0 * sin angle + nth i ylist 0 * cos angle
                    + snd translation)
          (seq 0 (length xlist)) in
    x_first <- getitem transformed_x 0 ;;
    y_first <- getitem transformed_y 0 ;;
    Ok (transformed_x ++ [x_first], transformed_y ++ [y_first]).

Definition Rltb (a b : R) : bool := if Rlt_dec a b then true else false.

(** [_is_collided]: [1.0] as soon as a key point of the scaled footprint
    is strictly inside an obstacle, [0.0] otherwise. *)
Definition _is_collided (x_t : Vec3) : result R :=
  let vw := robot_w self in
  let vl := robot_l self in
  let safety_margin_rate := collision_safety_margin_rate self in
  let vw := vw * safety_margin_rate in
  let vl := vl * safety_margin_rate in
  let '(x, y, yaw) := x_t in
  let robot_shape_x :=
    [-0.5 * vl; -0.5 * vl; 0; 0.5 * vl; 0.5 * vl; 0.5 * vl; 0;
     -0.5 * vl; -0.5 * vl] in
  let robot_shape_y :=
    [0; 0.5 * vw; 0.5 * vw; 0.5 * vw; 0; -0.5 * vw; -0.5 * vw;
     -0.5 * vw; 0] in
  '(rotated_robot_shape_x, rotated_robot_shape_y) <-
    _affine_transform robot_shape_x robot_shape_y yaw (x, y) ;;
  if existsb (fun obs =>
       let '(obs_x, obs_y, obs_r) := obs in
       existsb (fun p =>
          Rltb ((nth p rotated_robot_shape_x 0 - obs_x) ^ 2
                + (nth p rotated_robot_shape_y 0 - obs_y) ^ 2)
               (obs_r ^ 2))
         (seq 0 (length rotated_robot_shape_x)))
       (obstacle_circles self)
  then Ok 1
  else Ok 0.

End Methods.

(** ** The plant *)

Module DifferentialDriveRobot.

Record t : Type := mkRobot {
  max_linear_vel : R;
  max_angular_vel : R;
  delta_t : R;
  state : Vec3
}.

(** [update] without the recording of the frame: the control is
    saturated, then integrated over [dt]. *)
Definition update (self : t) (u : Vec2) (delta_t' : R) : t :=
  let '(x, y, yaw) := state self in
  let dt := if Req_dec_T delta_t' 0 then delta_t self else delta_t' in
  let v := np_clip (fst u) (- max_linear_vel self) (max_linear_vel self) in
  let w := np_clip (snd u) (- max_angular_vel self) (max_angular_vel self) in
  mkRobot (max_linear_vel self) (max_angular_vel self) (delta_t self)
          (x + v * cos yaw * dt, y + v * sin yaw * dt, yaw + w * dt).

End DifferentialDriveRobot.

(** ** Reference formulas and sample configurations *)

(** The weights without the shift by the minimum: [exp(-(1/lambda) S[k])]
    over the sum of these terms. *)
Definition unshifted_weights (lambda : R) (S : list R) : list R :=
  let eta := fold_left (fun acc s => acc + exp (- 1 / lambda * s)) S 0 in
  map (fun s => (1 / eta) * exp (- 1 / lambda * s)) S.

Definition sum_list (l : list R) : R := fold_left Rplus l 0.

(** The configuration of the notebook's main cell, with the horizon, the
    number of samples and the optimal trajectory flag left open. *)
Definition main_config (horizon samples : Z) (optimal : bool) : Config :=
  mkConfig (0.1 * 2) 0.5 0.6 0.8 2 2 (15, 5, 0)
           horizon samples 0.05 100 0.98
           (matrix2 0.075 0 0 2)
           [50; 50; 1; 20] [50; 50; 1; 20]
           optimal false
           [(8, 5, 1); (18, -5, 1.5)] 1.2.

(** The solver that [__init__] builds from [main_config] on an empty heap. *)
Definition main_controller (horizon samples : Z) (optimal : bool)
  : MPPIControllerForDifferentialDrive :=
  mkController 3 2 horizon samples 0.05 100 0.98 (100 * (1 - 0.98))
               (matrix2 0.075 0 0 2)
               [50; 50; 1; 20] [50; 50; 1; 20]
               optimal false (0.1 * 2) 0.5 0.6 0.8 2 2 (15, 5, 0)
               [(8, 5, 1); (18, -5, 1.5)] 1.2 0%nat.

(** A configuration with another covariance. *)
Definition with_sigma (c : Config) (sigma : Matrix) : Config :=
  mkConfig (cfg_delta_t c) (cfg_wheel_base c) (cfg_robot_width c)
           (cfg_robot_length c) (cfg_max_linear_vel c) (cfg_max_angular_vel c)
           (cfg_goal c) (cfg_horizon_step_T c) (cfg_number_of_samples_K c)
           (cfg_param_exploration c) (cfg_param_lambda c) (cfg_param_alpha c)
           sigma
           (cfg_stage_cost_weight c) (cfg_terminal_cost_weight c)
           (cfg_visualize_optimal_traj c) (cfg_visualze_sampled_trajs c)
           (cfg_obstacle_circles c) (cfg_collision_safety_margin_rate c).

(** A noise draw that is [first] at step 0 and [others] afterwards, for
    every sample. *)
Definition draw_step (first others : Vec2) : nat -> nat -> Vec2 :=
  fun _ t => match t with O => first | _ => others end.

(** The same solver with another obstacle set and safety margin. *)
Definition with_obstacles (self : MPPIControllerForDifferentialDrive)
           (obstacles : list Vec3) (margin : R)
  : MPPIControllerForDifferentialDrive :=
  mkController (dim_x self) (dim_u self) (T self) (K self)
               (param_exploration self) (param_lambda self)
               (param_alpha self) (param_gamma self) (Sigma self)
               (stage_cost_weight self) (terminal_cost_weight self)
               (visualize_optimal_traj self) (visualze_sampled_trajs self)
               (delta_t self) (wheel_base self) (robot_w self) (robot_l self)
               (max_linear_vel self) (max_angular_vel self) (goal self)
               obstacles margin (u_prev self).

(** The radius of the circle around the pose that holds every key point
    of the scaled footprint: half its diagonal. *)
Definition footprint_radius (self : MPPIControllerForDifferentialDrive) : R :=
  sqrt ((0.5 * (robot_l self * collision_safety_margin_rate self)) ^ 2
        + (0.5 * (robot_w self * collision_safety_margin_rate self)) ^ 2).

(** The moving average over a window of 10 of a sequence of 10 values
    [a 0 .. a 9], each entry divided by the number of taps of its window
    that fall inside the sequence. *)
Definition window_average_10 (a : nat -> R) : list R :=
  let a0 := a 0%nat in let a1 := a 1%nat in let a2 := a 2%nat in
  let a3 := a 3%nat in let a4 := a 4%nat in let a5 := a 5%nat in
  let a6 := a 6%nat in let a7 := a 7%nat in let a8 := a 8%nat in
  let a9 := a 9%nat in
  [(a0 + a1 + a2 + a3 + a4) / 5;
   (a0 + a1 + a2 + a3 + a4 + a5) / 6;
   (a0 + a1 + a2 + a3 + a4 + a5 + a6) / 7;
   (a0 + a1 + a2 + a3 + a4 + a5 + a6 + a7) / 8;
   (a0 + a1 + a2 + a3 + a4 + a5 + a6 + a7 + a8) / 9;
   (a0 + a1 + a2 + a3 + a4 + a5 + a6 + a7 + a8 + a9) / 10;
   (a1 + a2 + a3 + a4 + a5 + a6 + a7 + a8 + a9) / 9;
   (a2 + a3 + a4 + a5 + a6 + a7 + a8 + a9) / 8;
   (a3 + a4 + a5 + a6 + a7 + a8 + a9) / 7;
   (a4 + a5 + a6 + a7 + a8 + a9) / 6].

(** A sequence shifted one step to the left: the first entry dropped and
    the last one repeated at the end. *)
Definition shift_left (a : list Vec2) : list Vec2 := tl a ++ [last a vzero].

(** The configurations on which a call of [calc_control_input] raises
    nothing: a horizon no shorter than the smoothing window, at least one
    sample, a non-zero temperature, an invertible 2 x 2 covariance and
    cost weights for the three state components. *)
Definition well_configured (self : MPPIControllerForDifferentialDrive) : Prop :=
  (10 <= T self)%Z /\
  (1 <= K self)%Z /\
  param_lambda self <> 0 /\
  dim_u self = 2%nat /\
  shape0 (Sigma self) = 2%nat /\
  shape1 (Sigma self) = 2%nat /\
  entry (Sigma self) 0 0 * entry (Sigma self) 1 1
  - entry (Sigma self) 0 1 * entry (Sigma self) 1 0 <> 0 /\
  (3 <= length (stage_cost_weight self))%nat /\
  (3 <= length (terminal_cost_weight self))%nat.

(** The warm-start buffer of the solver has one row per horizon step. *)
Definition buffer_ok (self : MPPIControllerForDifferentialDrive) (h : heap)
  : Prop :=
  length (read h (u_prev self)) = Z.to_nat (T self).

(** Both components of a control within the configured limits. *)
Definition within_limits (self : MPPIControllerForDifferentialDrive) (u : Vec2)
  : Prop :=
  - max_linear_vel self <= fst u <= max_linear_vel self /\
  - max_angular_vel self <= snd u <= max_angular_vel self.

(** ** The simulation loop of the main cell *)

Module Simulation.

(** [reset]: the state becomes [init_state] (the frames and the figure
    are not modelled). *)
Definition reset (self : DifferentialDriveRobot.t) (init_state : Vec3)
  : DifferentialDriveRobot.t :=
  DifferentialDriveRobot.mkRobot
    (DifferentialDriveRobot.max_linear_vel self)
    (DifferentialDriveRobot.max_angular_vel self)
    (DifferentialDriveRobot.delta_t self)
    init_state.

(** [get_state]: a copy of the state. *)
Definition get_state (self : DifferentialDriveRobot.t) : Vec3 :=
  DifferentialDriveRobot.state self.

(** How the loop of the main cell ends: all its iterations done, the
    [break] of the [except IndexError] branch, or the [break] of the goal
    test, each [break] with the index [i] of its iteration. *)
Inductive exit : Type :=
| Exhausted
| IndexErrorBreak (i : nat)
| GoalReached (i : nat).

(** The loop [for i in range(sim_steps)] from iteration [i] on, one noise
    draw per remaining iteration. Only [IndexError] is caught; any other
    exception of [calc_control_input] leaves the loop. The goal test
    reads [current_state], the state observed before [robot.update]. *)
Fixpoint simulation_loop (mppi : MPPIControllerForDifferentialDrive)
         (delta_t : R) (draws : list (nat -> nat -> Vec2)) (i : nat)
         (robot : DifferentialDriveRobot.t) (h : heap)
  : result (DifferentialDriveRobot.t * exit) :=
  match draws with
  | [] => Ok (robot, Exhausted)
  | draw :: rest =>
      let current_state := get_state robot in
      match calc_control_input mppi draw current_state h with
      | Raise IndexError => Ok (robot, IndexErrorBreak i)
      | Raise e => Raise e
      | Ok (out, h) =>
          let optimal_input := read_view h (action out) in
          let robot := DifferentialDriveRobot.update robot optimal_input
                                                     delta_t in
          let '(x, y, _) := current_state in
          let '(gx, gy, _) := goal mppi in
          let pos_error := sqrt ((x - gx) ^ 2 + (y - gy) ^ 2) in
          if Rlt_dec pos_error 0.5 then Ok (robot, GoalReached i)
          else simulation_loop mppi delta_t rest (Datatypes.S i) robot h
      end
  end.

(** The distance between the positions of two states. *)
Definition distance (a b : Vec3) : R :=
  let '(ax, ay, _) := a in
  let '(bx, by_, _) := b in
  sqrt ((ax - bx) ^ 2 + (ay - by_) ^ 2).

End Simulation.

(** ** Predicates of the statements below *)

(** Every component of every noise vector of a draw lies in [[lo, hi]]. *)
Definition draw_within (draw : nat -> nat -> Vec2) (lo hi : R) : Prop :=
  forall k t, lo <= fst (draw k t) <= hi /\ lo <= snd (draw k t) <= hi.

(** Both components of a 2-vector lie in [[lo, hi]]. *)
Definition components_within (lo hi : R) (u : Vec2) : Prop :=
  lo <= fst u <= hi /\ lo <= snd u <= hi.

(** The configurations from which [__init__] builds a well configured
    solver. *)
Definition config_ok (c : Config) : Prop :=
  (10 <= cfg_horizon_step_T c)%Z /\
  (1 <= cfg_number_of_samples_K c)%Z /\
  cfg_param_lambda c <> 0 /\
  shape0 (cfg_sigma c) = 2%nat /\
  shape1 (cfg_sigma c) = 2%nat /\
  entry (cfg_sigma c) 0 0 * entry (cfg_sigma c) 1 1
  - entry (cfg_sigma c) 0 1 * entry (cfg_sigma c) 1 0 <> 0 /\
  (3 <= length (cfg_stage_cost_weight c))%nat /\
  (3 <= length (cfg_terminal_cost_weight c))%nat.

(** ** Heading error *)

Lemma Int_part_IZR (z : Z) : Int_part (IZR z) = z.
Proof.
  symmetry. apply Int_part_spec. split; lra.
Qed.

Lemma py_mod_bounds (x m : R) : 0 < m -> 0 <= py_mod x m < m.
Proof.
  intros Hm. unfold py_mod.
  destruct (base_Int_part (x / m)) as [Hlo Hhi].
  assert (Hx : x = m * (x / m)) by (field; lra).
  set (q := IZR (Int_part (x / m))) in *.
  split.
  - assert (m * q <= m * (x / m)) by (apply Rmult_le_compat_l; lra). lra.
  - assert (m * (x / m - q) < m * 1) by (apply Rmult_lt_compat_l; lra). lra.
Qed.

Lemma yaw_error_range (yaw gyaw : R) :
  - PI <= yaw_error yaw gyaw < PI.
Proof.
  unfold yaw_error.
  pose proof PI_RGT_0 as Hpi.
  pose proof (py_mod_bounds (yaw - gyaw + PI) (2 * PI)) as H.
  lra.
Qed.

Lemma yaw_error_3pi : yaw_error (3 * PI) 0 = - PI.
Proof.
  unfold yaw_error, py_mod.
  pose proof PI_RGT_0 as Hpi.
  replace ((3 * PI - 0 + PI) / (2 * PI)) with (IZR 2) by (field; lra).
  rewrite Int_part_IZR. lra.
Qed.

(** C6, as the code has it: the heading error lies in the half-open
    interval from -pi (included) to pi (excluded) and differs from the raw
    difference by a multiple of 2 pi; for goal heading 0 and rollout
    heading 3 pi it is -pi, whose square is pi squared. *)
Theorem C6_heading_error_wrapped (yaw gyaw : R) :
  - PI <= yaw_error yaw gyaw < PI /\
  (exists n : Z, yaw_error yaw gyaw = yaw - gyaw - 2 * PI * IZR n) /\
  yaw_error (3 * PI) 0 = - PI /\
  yaw_error (3 * PI) 0 ^ 2 = PI ^ 2.
Proof.
  split; [apply yaw_error_range|].
  split.
  - exists (Int_part ((yaw - gyaw + PI) / (2 * PI))).
    unfold yaw_error, py_mod. lra.
  - rewrite yaw_error_3pi. split; [reflexivity | ring].
Qed.

(** C6 as stated fails: for goal heading 0 and rollout heading 3 pi the
    wrapped error is not pi and is outside the interval open at -pi. *)
Lemma C6_heading_error_counterexample :
  yaw_error (3 * PI) 0 <> PI /\ ~ (- PI < yaw_error (3 * PI) 0 <= PI).
Proof.
  rewrite yaw_error_3pi. pose proof PI_RGT_0. split; lra.
Qed.

(** ** Importance weights *)

Lemma for_each_indexed {St A : Type} (S : list A)
      (body : St -> nat -> result St) (g : St -> A -> St) :
  (forall st k x, nth_error S k = Some x -> body st k = Ok (g st x)) ->
  forall l2 l1 st,
    S = l1 ++ l2 ->
    for_each body st (seq (length l1) (length l2)) = Ok (fold_left g l2 st).
Proof.
  intros Hbody l2. induction l2 as [|x l2 IH]; intros l1 st HS; [reflexivity|].
  simpl. rewrite (Hbody st (length l1) x).
  - simpl.
    replace (Datatypes.S (length l1)) with (length (l1 ++ [x]))
      by (rewrite length_app; simpl; lia).
    apply IH. rewrite <- app_assoc. exact HS.
  - rewrite HS, nth_error_app2, Nat.sub_diag by lia. reflexivity.
Qed.

Lemma for_each_all {St A : Type} (S : list A)
      (body : St -> nat -> result St) (g : St -> A -> St) (st : St) :
  (forall st k x, nth_error S k = Some x -> body st k = Ok (g st x)) ->
  for_each body st (seq 0 (length S)) = Ok (fold_left g S st).
Proof.
  intros Hbody. exact (for_each_indexed S body g Hbody S [] st eq_refl).
Qed.

Lemma fold_left_snoc_map {A B : Type} (f : A -> B) (l : list A) (acc : list B) :
  fold_left (fun w s => w ++ [f s]) l acc = acc ++ map f l.
Proof.
  revert acc. induction l as [|x l IH]; intros acc; simpl.
  - now rewrite app_nil_r.
  - rewrite IH, <- app_assoc. reflexivity.
Qed.

(** The closed form of [_compute_weights] on a cost vector with one entry
    per sample. *)
Lemma compute_weights_closed (self : MPPIControllerForDifferentialDrive)
      (S : list R) :
  S <> [] ->
  Z.of_nat (length S) = K self ->
  param_lambda self <> 0 ->
  exists rho,
    np_min S = Ok rho /\
    _compute_weights self S =
    Ok (map (fun s =>
               1 / fold_left (fun acc s' =>
                                acc + exp (- 1 / param_lambda self * (s' - rho)))
                             S 0
               * exp (- 1 / param_lambda self * (s - rho))) S).
Proof.
  intros Hne Hlen Hlam.
  destruct S as [|s0 S']; [congruence|].
  exists (fold_left Rmin S' s0). split; [reflexivity|].
  unfold _compute_weights, np_zeros1, range.
  rewrite <- Hlen, Nat2Z.id.
  destruct (Z.ltb_spec (Z.of_nat (length (s0 :: S'))) 0) as [Hneg|_]; [lia|].
  cbn [bind np_min].
  set (rho := fold_left Rmin S' s0).
  remember (s0 :: S') as S eqn:HS.
  assert (Hbody : forall (St : Type) (g : St -> R -> St) (st : St) k x,
             nth_error S k = Some x ->
             (c <- (if Req_dec_T (param_lambda self) 0
                    then Raise ZeroDivisionError
                    else Ok (- 1 / param_lambda self)) ;;
              Sk <- getitem S k ;; Ok (g st (c * (Sk - rho)))) =
             Ok (g st (- 1 / param_lambda self * (x - rho)))).
  { intros St g st k x Hk.
    destruct (Req_dec_T (param_lambda self) 0); [contradiction|].
    unfold getitem. rewrite Hk. reflexivity. }
  rewrite (for_each_all S _
             (fun acc s' => acc + exp (- 1 / param_lambda self * (s' - rho)))
             0 (fun st k x Hk => Hbody R (fun a y => a + exp y) st k x Hk)).
  cbn [bind].
  set (eta := fold_left _ S 0).
  rewrite (for_each_all S _
             (fun w s => w ++ [1 / eta * exp (- 1 / param_lambda self * (s - rho))])
             [] (fun st k x Hk =>
                   Hbody (list R) (fun a y => a ++ [1 / eta * exp y]) st k x Hk)).
  rewrite fold_left_snoc_map. reflexivity.
Qed.

Lemma fold_left_sum_pos (e : R -> R) (l : list R) (a : R) :
  (forall s, 0 < e s) -> 0 <= a -> l <> [] ->
  0 < fold_left (fun acc s => acc + e s) l a.
Proof.
  intros He. revert a. induction l as [|x l IH]; intros a Ha Hne; [congruence|].
  simpl. destruct l as [|y l].
  - simpl. specialize (He x). lra.
  - apply IH; [specialize (He x); lra | discriminate].
Qed.

Lemma fold_left_sum_scale (c : R) (e : R -> R) (l : list R) (a : R) :
  fold_left Rplus (map (fun s => c * e s) l) (c * a) =
  c * fold_left (fun acc s => acc + e s) l a.
Proof.
  revert a. induction l as [|x l IH]; intros a; simpl; [reflexivity|].
  rewrite <- IH. f_equal. ring.
Qed.

Lemma fold_left_sum_factor (k : R) (e e' : R -> R) (l : list R) (a : R) :
  (forall s, e s = e' s * k) ->
  fold_left (fun acc s => acc + e s) l (a * k) =
  fold_left (fun acc s => acc + e' s) l a * k.
Proof.
  intros He. revert a. induction l as [|x l IH]; intros a; simpl; [reflexivity|].
  rewrite <- IH. f_equal. rewrite He. ring.
Qed.

(** C4: on a non-empty cost vector (one cost per sample, non-zero
    temperature) the weights are computed, there is one per sample, each
    is non-negative and they sum to 1. *)
Theorem C4_weights_nonneg_sum_one (self : MPPIControllerForDifferentialDrive)
        (S : list R) :
  S <> [] ->
  Z.of_nat (length S) = K self ->
  param_lambda self <> 0 ->
  exists w,
    _compute_weights self S = Ok w /\
    length w = length S /\
    Forall (fun wk => 0 <= wk) w /\
    sum_list w = 1.
Proof.
  intros Hne Hlen Hlam.
  destruct (compute_weights_closed self S Hne Hlen Hlam) as [rho [_ Hw]].
  set (e := fun s => exp (- 1 / param_lambda self * (s - rho))).
  assert (Heta : 0 < fold_left (fun acc s => acc + e s) S 0).
  { apply fold_left_sum_pos; [intro; apply exp_pos | lra | exact Hne]. }
  eexists. split; [exact Hw|].
  fold e. set (eta := fold_left (fun acc s => acc + e s) S 0) in *.
  split; [apply length_map|]. split.
  - apply Forall_map, Forall_forall. intros s _.
    apply Rmult_le_pos; [|left; apply exp_pos].
    unfold Rdiv. rewrite Rmult_1_l. left. now apply Rinv_0_lt_compat.
  - pose proof (fold_left_sum_scale (1 / eta) e S 0) as Hs.
    rewrite Rmult_0_r in Hs.
    change (fold_left Rplus (map (fun s => 1 / eta * e s) S) 0 = 1).
    rewrite Hs. fold eta. field. lra.
Qed.

Lemma C4_weights_witness :
  exists w,
    _compute_weights (main_controller 10 2 false) [3; 1] = Ok w /\
    length w = 2%nat /\
    Forall (fun wk => 0 <= wk) w /\
    sum_list w = 1.
Proof.
  apply (C4_weights_nonneg_sum_one (main_controller 10 2 false) [3; 1]).
  - discriminate.
  - reflexivity.
  - simpl. lra.
Defined.

(** C5: for a positive temperature, the weights computed with the shift
    by the minimum cost are the weights of the unshifted formula. *)
Theorem C5_shift_invariance (self : MPPIControllerForDifferentialDrive)
        (S : list R) :
  S <> [] ->
  Z.of_nat (length S) = K self ->
  0 < param_lambda self ->
  _compute_weights self S = Ok (unshifted_weights (param_lambda self) S).
Proof.
  intros Hne Hlen Hlam.
  destruct (compute_weights_closed self S Hne Hlen) as [rho [_ Hw]]; [lra|].
  rewrite Hw. f_equal. unfold unshifted_weights.
  set (c := - 1 / param_lambda self).
  set (k := exp (- (c * rho))).
  assert (Hk : 0 < k) by apply exp_pos.
  assert (He : forall s, exp (c * (s - rho)) = exp (c * s) * k).
  { intros s. unfold k. rewrite <- exp_plus. f_equal. ring. }
  assert (Heta : fold_left (fun acc s => acc + exp (c * (s - rho))) S 0 =
                 fold_left (fun acc s => acc + exp (c * s)) S 0 * k).
  { replace 0 with (0 * k) at 1 by ring.
    apply (fold_left_sum_factor k _ (fun s => exp (c * s))). exact He. }
  rewrite Heta.
  assert (Hpos : 0 < fold_left (fun acc s => acc + exp (c * s)) S 0).
  { apply (fold_left_sum_pos (fun s => exp (c * s)));
      [intro; apply exp_pos | lra | exact Hne]. }
  apply map_ext. intros s. rewrite He. field. lra.
Qed.

Lemma C5_shift_invariance_witness :
  _compute_weights (main_controller 10 2 false) [3; 1] =
  Ok (unshifted_weights 100 [3; 1]).
Proof.
  apply (C5_shift_invariance (main_controller 10 2 false) [3; 1]).
  - discriminate.
  - reflexivity.
  - simpl. lra.
Defined.

(** ** Collision predicate *)

Lemma Rltb_true (a b : R) : a < b -> Rltb a b = true.
Proof.
  intros H. unfold Rltb.
  destruct (Rlt_dec a b); [reflexivity | contradiction].
Qed.

Lemma Rltb_false (a b : R) : b <= a -> Rltb a b = false.
Proof. intros H. unfold Rltb. destruct (Rlt_dec a b); [lra | reflexivity]. Qed.

Lemma cos_sin_unit (a : R) : cos a * cos a + sin a * sin a = 1.
Proof. pose proof (sin2_cos2 a) as H. unfold Rsqr in H. lra. Qed.

Lemma existsb_false {A : Type} (f : A -> bool) (l : list A) :
  (forall x, In x l -> f x = false) -> existsb f l = false.
Proof.
  intros H. induction l as [|x l IH]; [reflexivity|].
  simpl. rewrite (H x (or_introl eq_refl)). apply IH.
  intros y Hy. apply H. now right.
Qed.

(** A point at distance at most [e] from the pose stays outside a circle
    whose centre is at distance [d >= |r| + e] from the pose. *)
Lemma outside_circle (dx dy a b d e r : R) :
  0 <= d -> 0 <= e ->
  d * d = dx * dx + dy * dy ->
  a * a + b * b <= e * e ->
  Rabs r + e <= d ->
  r ^ 2 <= (a + dx) ^ 2 + (b + dy) ^ 2.
Proof.
  intros Hd He Hdd Hab Hfar.
  assert (Hr : r ^ 2 = Rabs r * Rabs r).
  { unfold Rabs. destruct (Rcase_abs r); ring. }
  pose proof (Rabs_pos r) as Hr0.
  set (f := sqrt (a * a + b * b)).
  assert (Hf0 : 0 <= f) by apply sqrt_pos.
  assert (Hff : f * f = a * a + b * b) by (apply sqrt_sqrt; nra).
  assert (Hfe : f <= e) by nra.
  assert (Hcs : (a * dx + b * dy) * (a * dx + b * dy) <= (d * f) * (d * f)).
  { replace ((d * f) * (d * f)) with ((d * d) * (f * f)) by ring.
    rewrite Hdd, Hff.
    pose proof (Rle_0_sqr (a * dy - b * dx)) as Hsq. unfold Rsqr in Hsq.
    replace ((dx * dx + dy * dy) * (a * a + b * b))
      with ((a * dx + b * dy) * (a * dx + b * dy)
            + (a * dy - b * dx) * (a * dy - b * dx)) by ring.
    lra. }
  assert (Hlow : - (d * f) <= a * dx + b * dy).
  { assert (0 <= d * f) by nra. nra. }
  rewrite Hr.
  replace ((a + dx) ^ 2 + (b + dy) ^ 2)
    with ((dx * dx + dy * dy) + 2 * (a * dx + b * dy) + (a * a + b * b)) by ring.
  rewrite <- Hdd, <- Hff.
  assert (Rabs r <= d - f) by lra.
  assert (Rabs r * Rabs r <= (d - f) * (d - f)) by nra.
  nra.
Qed.

(** C9, as the code has it. The centre of the robot is not a key point:
    with the pose on the centre of an obstacle the predicate is true when
    the radius exceeds the scaled half length or half width of the
    footprint; it is false when every obstacle centre is at least its
    radius plus the footprint radius away from the pose. *)
Theorem C9_collision_predicate (self : MPPIControllerForDifferentialDrive)
        (x y yaw : R) :
  (forall r,
      In (x, y, r) (obstacle_circles self) ->
      (0.5 * (robot_l self * collision_safety_margin_rate self)) ^ 2 < r ^ 2 \/
      (0.5 * (robot_w self * collision_safety_margin_rate self)) ^ 2 < r ^ 2 ->
      _is_collided self (x, y, yaw) = Ok 1) /\
  ((forall ox oy r,
       In (ox, oy, r) (obstacle_circles self) ->
       Rabs r + footprint_radius self <= sqrt ((x - ox) ^ 2 + (y - oy) ^ 2)) ->
   _is_collided self (x, y, yaw) = Ok 0).
Proof.
  pose proof (cos_sin_unit yaw) as Hcs.
  split.
  - intros r Hin Hr.
    unfold _is_collided, _affine_transform.
    cbn [length Nat.eqb negb seq map nth getitem nth_error bind app fst snd].
    match goal with
    | |- (if ?b then _ else _) = _ => assert (Hb : b = true); [|now rewrite Hb]
    end.
    apply existsb_exists. exists (x, y, r). split; [exact Hin|].
    apply existsb_exists.
    destruct Hr as [Hl | Hw].
    + exists 0%nat. split; [simpl; tauto|].
      cbn [nth]. apply Rltb_true.
      match goal with
      | |- ?lhs < _ =>
          replace lhs
            with ((0.5 * (robot_l self * collision_safety_margin_rate self)) ^ 2
                  * (cos yaw * cos yaw + sin yaw * sin yaw)) by lra
      end.
      rewrite Hcs. lra.
    + exists 2%nat. split; [simpl; tauto|].
      cbn [nth]. apply Rltb_true.
      match goal with
      | |- ?lhs < _ =>
          replace lhs
            with ((0.5 * (robot_w self * collision_safety_margin_rate self)) ^ 2
                  * (cos yaw * cos yaw + sin yaw * sin yaw)) by lra
      end.
      rewrite Hcs. lra.
  - intros Hfar.
    unfold _is_collided, _affine_transform.
    cbn [length Nat.eqb negb seq map nth getitem nth_error bind app fst snd].
    match goal with
    | |- (if ?b then _ else _) = _ => assert (Hb : b = false); [|now rewrite Hb]
    end.
    apply existsb_false. intros [[ox oy] r] Hin.
    specialize (Hfar ox oy r Hin). unfold footprint_radius in Hfar.
    set (vl := robot_l self * collision_safety_margin_rate self) in *.
    set (vw := robot_w self * collision_safety_margin_rate self) in *.
    set (e := sqrt ((0.5 * vl) ^ 2 + (0.5 * vw) ^ 2)) in *.
    set (d := sqrt ((x - ox) ^ 2 + (y - oy) ^ 2)) in *.
    assert (He0 : 0 <= e) by apply sqrt_pos.
    assert (Hd0 : 0 <= d) by apply sqrt_pos.
    assert (Hee : e * e = (0.5 * vl) ^ 2 + (0.5 * vw) ^ 2)
      by (apply sqrt_sqrt, Rplus_le_le_0_compat; apply pow2_ge_0).
    assert (Hdd : d * d = (x - ox) * (x - ox) + (y - oy) * (y - oy)).
    { unfold d.
      rewrite sqrt_sqrt by (apply Rplus_le_le_0_compat; apply pow2_ge_0).
      ring. }
    assert (Hpt : forall qx qy,
               qx * qx + qy * qy <= e * e ->
               Rltb ((qx * cos yaw - qy * sin yaw + x - ox) ^ 2
                     + (qx * sin yaw + qy * cos yaw + y - oy) ^ 2) (r ^ 2)
               = false).
    { intros qx qy Hq. apply Rltb_false.
      pose proof (outside_circle (x - ox) (y - oy)
                    (qx * cos yaw - qy * sin yaw) (qx * sin yaw + qy * cos yaw)
                    d e r Hd0 He0 Hdd) as Hout.
      assert (Hrot : (qx * cos yaw - qy * sin yaw) * (qx * cos yaw - qy * sin yaw)
                     + (qx * sin yaw + qy * cos yaw) * (qx * sin yaw + qy * cos yaw)
                     = qx * qx + qy * qy).
      { replace ((qx * cos yaw - qy * sin yaw) * (qx * cos yaw - qy * sin yaw)
                 + (qx * sin yaw + qy * cos yaw) * (qx * sin yaw + qy * cos yaw))
          with ((qx * qx + qy * qy) * (cos yaw * cos yaw + sin yaw * sin yaw))
          by ring.
        rewrite Hcs. ring. }
      rewrite Hrot in Hout. specialize (Hout Hq Hfar).
      replace (qx * cos yaw - qy * sin yaw + x - ox)
        with (qx * cos yaw - qy * sin yaw + (x - ox)) by ring.
      replace (qx * sin yaw + qy * cos yaw + y - oy)
        with (qx * sin yaw + qy * cos yaw + (y - oy)) by ring.
      exact Hout. }
    apply existsb_false. intros p Hp.
    simpl in Hp.
    repeat (destruct Hp as [Hp | Hp]; [subst p; cbn [nth]; apply Hpt; nra|]).
    contradiction.
Qed.

Lemma le_sqrt (a b : R) : 0 <= a -> a * a <= b -> a <= sqrt b.
Proof.
  intros Ha Hab. rewrite <- (sqrt_square a Ha). apply sqrt_le_1_alt. exact Hab.
Qed.

Lemma sqrt_le (a b : R) : 0 <= b -> a <= b * b -> sqrt a <= b.
Proof.
  intros Hb Hab. rewrite <- (sqrt_square b Hb). apply sqrt_le_1_alt. exact Hab.
Qed.

Lemma C9_collision_predicate_witness :
  _is_collided (with_obstacles (main_controller 10 50 false) [(0, 0, 1)] 1.2)
               (0, 0, 0) = Ok 1 /\
  _is_collided (main_controller 10 50 false) (0, 0, 0) = Ok 0.
Proof.
  split.
  - apply (proj1 (C9_collision_predicate
                    (with_obstacles (main_controller 10 50 false) [(0, 0, 1)] 1.2)
                    0 0 0) 1).
    + simpl. left. reflexivity.
    + left. simpl. lra.
  - apply (proj2 (C9_collision_predicate (main_controller 10 50 false) 0 0 0)).
    intros ox oy r Hin.
    assert (Hfoot : footprint_radius (main_controller 10 50 false) <= 0.6).
    { unfold footprint_radius. apply sqrt_le; simpl; lra. }
    simpl in Hin. destruct Hin as [Hin | [Hin | []]]; inversion Hin; subst.
    + apply Rle_trans with (1 + 0.6).
      * rewrite Rabs_right by lra. lra.
      * apply le_sqrt; lra.
    + apply Rle_trans with (1.5 + 0.6).
      * rewrite Rabs_right by lra. lra.
      * apply le_sqrt; lra.
Defined.

(** C9 as stated fails: a robot of the notebook's size placed on the
    centre of an obstacle of radius 0.1 is reported as not collided, all
    its key points being on the footprint boundary. *)
Lemma C9_collision_counterexample :
  0 < 0.1 /\
  _is_collided (with_obstacles (main_controller 10 50 false) [(0, 0, 0.1)] 1.2)
               (0, 0, 0) = Ok 0 /\
  _is_collided (with_obstacles (main_controller 10 50 false) [(0, 0, 0.1)] 1.2)
               (0, 0, 0) <> Ok 1.
Proof.
  assert (H : _is_collided
                (with_obstacles (main_controller 10 50 false) [(0, 0, 0.1)] 1.2)
                (0, 0, 0) = Ok 0).
  { unfold _is_collided, _affine_transform.
    cbn [length Nat.eqb negb seq map nth getitem nth_error bind app fst snd
         with_obstacles main_controller robot_w robot_l
         collision_safety_margin_rate obstacle_circles existsb].
    rewrite cos_0, sin_0.
    rewrite !Rltb_false by lra. reflexivity. }
  split; [lra|]. split; [exact H|].
  rewrite H. intros Heq. inversion Heq. lra.
Qed.

(** ** Moving average filter *)

Lemma length_set_nth {A : Type} (l : list A) (i : nat) (x : A) :
  length (set_nth l i x) = length l.
Proof.
  revert i. induction l as [|y l IH]; intros [|i]; simpl; auto.
Qed.

Lemma nth_set_nth {A : Type} (l : list A) (i k : nat) (x d : A) :
  (i < length l)%nat ->
  nth k (set_nth l i x) d = if (k =? i)%nat then x else nth k l d.
Proof.
  revert i k. induction l as [|y l IH]; intros i k Hi; simpl in Hi; [lia|].
  destruct i as [|i], k as [|k]; simpl; auto.
  apply IH. lia.
Qed.

Lemma scale_at_ok (col : list R) (i : nat) (c : R) :
  (i < length col)%nat ->
  scale_at col i c = Ok (set_nth col i (nth i col 0 * c)).
Proof.
  intros Hi. unfold scale_at, getitem.
  destruct (nth_error col i) as [x|] eqn:Hx.
  - simpl. now rewrite (nth_error_nth _ _ 0 Hx).
  - apply nth_error_None in Hx. lia.
Qed.

Lemma convolve_same_long (a v : list R) :
  v <> [] -> (length v <= length a)%nat ->
  np_convolve_same a v =
  Ok (map (fun k =>
             fold_left (fun acc j =>
                acc +
                (if ((length v / 2 <=? k + j)
                     && (k + j - length v / 2 <? length a))%nat
                 then nth (k + j - length v / 2) a 0 * nth (length v - 1 - j) v 0
                 else 0))
               (seq 0 (length v)) 0)
          (seq 0 (length a))).
Proof.
  intros Hv Hlen. unfold np_convolve_same.
  destruct a as [|a0 a']; [destruct v; [congruence | simpl in Hlen; lia]|].
  destruct v as [|v0 v']; [congruence|].
  destruct (Nat.ltb_spec (length (a0 :: a')) (length (v0 :: v'))); [lia|].
  reflexivity.
Qed.

(** The example of numpy's documentation:
    [np.convolve([1, 2, 3], [0, 1, 0.5], "same")] is [[1, 2.5, 4]]. *)
Example convolve_same_documented :
  exists x y z,
    np_convolve_same [1; 2; 3] [0; 1; 0.5] = Ok [x; y; z] /\
    x = 1 /\ y = 2.5 /\ z = 4.
Proof.
  do 3 eexists. split; [reflexivity|].
  cbn [fold_left seq length Nat.div Nat.divmod fst Nat.leb Nat.ltb Nat.add
       Nat.sub andb nth].
  repeat split; lra.
Qed.

(** With a window of 2 on four values the output keeps the first value
    alone and then sums neighbours: [[1, 3, 5, 7]] for [[1, 2, 3, 4]]. *)
Example convolve_same_even_window :
  exists x0 x1 x2 x3,
    np_convolve_same [1; 2; 3; 4] [1; 1] = Ok [x0; x1; x2; x3] /\
    x0 = 1 /\ x1 = 3 /\ x2 = 5 /\ x3 = 7.
Proof.
  do 4 eexists. split; [reflexivity|].
  cbn [fold_left seq length Nat.div Nat.divmod fst Nat.leb Nat.ltb Nat.add
       Nat.sub andb nth].
  repeat split; lra.
Qed.

Ltac decide_tests :=
  repeat match goal with
         | |- context [(?a <=? ?b)%nat] =>
             first [ rewrite (proj2 (Nat.leb_le a b)) by lia
                   | rewrite (proj2 (Nat.leb_gt a b)) by lia ]
         | |- context [(?a <? ?b)%nat] =>
             first [ rewrite (proj2 (Nat.ltb_lt a b)) by lia
                   | rewrite (proj2 (Nat.ltb_ge a b)) by lia ]
         | |- context [(?a =? ?b)%nat] =>
             first [ rewrite (proj2 (Nat.eqb_eq a b)) by lia
                   | rewrite (proj2 (Nat.eqb_neq a b)) by lia ]
         end.

Lemma nth_repeat_lt {A : Type} (c d : A) (n i : nat) :
  (i < n)%nat -> nth i (repeat c n) d = c.
Proof.
  intros Hi. rewrite (nth_indep _ d c) by (now rewrite repeat_length).
  apply nth_repeat.
Qed.

Lemma nth_map_seq {A : Type} (f : nat -> A) (n i : nat) (d : A) :
  (i < n)%nat -> nth i (map f (seq 0 n)) d = f i.
Proof.
  intros Hi. rewrite (nth_indep _ d (f 0%nat)) by (now rewrite length_map, length_seq).
  rewrite map_nth, seq_nth by exact Hi. reflexivity.
Qed.

Lemma filter_column_constant (c : R) (n : nat) :
  (10 <= n)%nat ->
  filter_column (repeat c n) 10 = Ok (repeat c n).
Proof.
  intros Hn. unfold filter_column.
  rewrite convolve_same_long;
    [| discriminate | rewrite !repeat_length; exact Hn].
  rewrite !repeat_length.
  change ((10 / 2)%nat) with 5%nat. change ((10 - 1)%nat) with 9%nat.
  cbn [bind]. rewrite length_map, length_seq, Nat.eqb_refl.
  change (((10 + 1) / 2)%nat) with 5%nat.
  change ((10 mod 2)%nat) with 0%nat.
  set (conv := map _ (seq 0 n)).
  assert (Hlen : length conv = n) by (unfold conv; now rewrite length_map, length_seq).
  cbn [seq for_each Nat.sub Nat.add bind].
  unfold neg_index.
  repeat (rewrite scale_at_ok by (rewrite ?length_set_nth, ?Hlen; lia);
          rewrite ?nth_set_nth by (rewrite ?length_set_nth, ?Hlen; lia);
          decide_tests;
          cbn [bind]; rewrite ?length_set_nth, ?Hlen; decide_tests;
          cbn [bind]).
  f_equal. apply (nth_ext _ _ 0 0).
  { rewrite !length_set_nth, Hlen, repeat_length. reflexivity. }
  rewrite !length_set_nth, Hlen. intros k Hk.
  rewrite !nth_set_nth by (rewrite ?length_set_nth, ?Hlen; lia).
  rewrite (nth_repeat_lt c 0 n k Hk).
  assert (Hcase : (k = 0 \/ k = 1 \/ k = 2 \/ k = 3 \/ k = 4 \/
                   (5 <= k /\ k + 5 <= n) \/
                   k = n - 4 \/ k = n - 3 \/ k = n - 2 \/ k = n - 1)%nat) by lia.
  repeat (destruct Hcase as [Hcase | Hcase]);
    try subst k; decide_tests;
    unfold conv; rewrite nth_map_seq by lia;
    cbn [seq fold_left nth repeat Nat.sub];
    decide_tests; cbn [andb];
    rewrite ?nth_repeat_lt by lia;
    rewrite !INR_IZR_INZ; cbn [Z.of_nat Pos.of_succ_nat Pos.succ]; lra.
Qed.

(** On a column at least as long as the window the filter returns a
    column of the same length. *)
Lemma filter_column_ok (col : list R) :
  (10 <= length col)%nat ->
  exists out, filter_column col 10 = Ok out /\ length out = length col.
Proof.
  intros Hn. unfold filter_column.
  rewrite convolve_same_long;
    [| discriminate | rewrite !repeat_length; exact Hn].
  rewrite !repeat_length.
  cbn [bind]. rewrite length_map, length_seq, Nat.eqb_refl.
  change (((10 + 1) / 2)%nat) with 5%nat.
  change ((10 mod 2)%nat) with 0%nat.
  set (conv := map _ (seq 0 (length col))).
  assert (Hlen : length conv = length col)
    by (unfold conv; now rewrite length_map, length_seq).
  cbn [seq for_each Nat.sub Nat.add bind].
  unfold neg_index.
  repeat (rewrite scale_at_ok by (rewrite ?length_set_nth, ?Hlen; lia);
          cbn [bind]; rewrite ?length_set_nth, ?Hlen; decide_tests;
          cbn [bind]).
  eexists. split; [reflexivity|].
  rewrite !length_set_nth. exact Hlen.
Qed.

Lemma combine_repeat {A B : Type} (a : A) (b : B) (n : nat) :
  combine (repeat a n) (repeat b n) = repeat (a, b) n.
Proof. induction n as [|n IH]; simpl; [reflexivity | now rewrite IH]. Qed.

Lemma moving_average_constant (c : Vec2) (n : nat) :
  (10 <= n)%nat ->
  _moving_average_filter (repeat c n) 10 = Ok (repeat c n).
Proof.
  intros Hn. unfold _moving_average_filter.
  rewrite !map_repeat, !filter_column_constant by exact Hn.
  cbn [bind]. rewrite combine_repeat. destruct c; reflexivity.
Qed.

Lemma moving_average_ok (xx : list Vec2) :
  (10 <= length xx)%nat ->
  exists out, _moving_average_filter xx 10 = Ok out /\ length out = length xx.
Proof.
  intros Hn. unfold _moving_average_filter.
  destruct (filter_column_ok (map fst xx)) as [c0 [H0 L0]];
    [now rewrite length_map|].
  destruct (filter_column_ok (map snd xx)) as [c1 [H1 L1]];
    [now rewrite length_map|].
  rewrite H0, H1. cbn [bind]. exists (combine c0 c1). split; [reflexivity|].
  transitivity (Nat.min (length c0) (length c1)); [apply length_combine|].
  rewrite L0, L1, !length_map. apply Nat.min_id.
Qed.

(** A column shorter than the window: the convolution has as many entries
    as the window, and the assignment to the column raises. *)
Lemma filter_column_short (col : list R) (window_size : nat) :
  (length col < window_size)%nat ->
  filter_column col window_size = Raise ValueError.
Proof.
  intros Hlen. unfold filter_column.
  set (b := repeat (1 / INR window_size) window_size).
  assert (Hb : length b = window_size) by apply repeat_length.
  clearbody b.
  destruct col as [|a col]; [reflexivity|].
  destruct b as [|b0 b]; [simpl in Hb, Hlen; lia|].
  unfold np_convolve_same.
  destruct (Nat.ltb_spec (length (a :: col)) (length (b0 :: b))) as [_|?];
    [|lia].
  cbn [bind]. rewrite length_map, length_seq, Hb.
  destruct (Nat.eqb_spec window_size (length (a :: col))) as [?|_]; [lia|].
  reflexivity.
Qed.

(** ** A call of [calc_control_input] *)

(** *** The call raises nothing on a well configured solver *)

Section Success.

Variable self : MPPIControllerForDifferentialDrive.
Hypothesis Hwf : well_configured self.

Lemma getitem_ok {A : Type} (a : list A) (i : nat) (d : A) :
  (i < length a)%nat -> getitem a i = Ok (nth i a d).
Proof.
  intros Hi. unfold getitem.
  destruct (nth_error a i) as [x|] eqn:Hx.
  - now rewrite (nth_error_nth _ _ d Hx).
  - apply nth_error_None in Hx. lia.
Qed.

Lemma np_linalg_inv_ok : exists M, np_linalg_inv (Sigma self) = Ok M.
Proof.
  destruct Hwf as (_ & _ & _ & _ & H0 & H1 & Hdet & _).
  unfold np_linalg_inv. rewrite H0, H1. cbn [Nat.eqb andb negb].
  destruct (Req_dec_T _ 0) as [Hz|_]; [contradiction|].
  eexists. reflexivity.
Qed.

Lemma _c_ok (x : Vec3) : exists c, _c self x = Ok c.
Proof.
  destruct Hwf as (_ & _ & _ & _ & _ & _ & _ & Hs & _).
  unfold _c. destruct x as [[x y] yaw]. destruct (goal self) as [[gx gy] gyaw].
  rewrite !(getitem_ok _ _ 0) by lia. cbn [bind]. eexists. reflexivity.
Qed.

Lemma _phi_ok (x : Vec3) : exists c, _phi self x = Ok c.
Proof.
  destruct Hwf as (_ & _ & _ & _ & _ & _ & _ & _ & Ht).
  unfold _phi. destruct x as [[x y] yaw]. destruct (goal self) as [[gx gy] gyaw].
  rewrite !(getitem_ok _ _ 0) by lia. cbn [bind]. eexists. reflexivity.
Qed.

Lemma rollout_steps_ok (u : list Vec2) (epsilon : nat -> nat -> Vec2) (k : nat)
      (ts : list nat) :
  (forall t, In t ts -> (t - 1 < length u)%nat) ->
  forall x Sk vk,
  exists x' Sk' vk',
    for_each (rollout_step self u epsilon k) (x, Sk, vk) ts = Ok (x', Sk', vk') /\
    length vk' = (length vk + length ts)%nat.
Proof.
  induction ts as [|t ts IH]; intros Hin x Sk vk.
  - exists x, Sk, vk. split; [reflexivity | simpl; lia].
  - cbn [for_each]. unfold rollout_step at 1.
    rewrite (getitem_ok u (t - 1) vzero) by (apply Hin; now left).
    cbn [bind].
    match goal with
    | |- context [_c self ?y] => destruct (_c_ok y) as [c Hc]; rewrite Hc
    end.
    destruct np_linalg_inv_ok as [M HM]. rewrite HM. cbn [bind].
    match goal with
    | |- context [for_each _ (?x1, ?S1, ?v1) ts] =>
        destruct (IH (fun t' Ht' => Hin t' (or_intror Ht')) x1 S1 v1)
          as (x' & Sk' & vk' & Hrun & Hlen)
    end.
    exists x', Sk', vk'. split; [exact Hrun|].
    rewrite Hlen, length_app. simpl. lia.
Qed.

Lemma rollout_ok (u : list Vec2) (epsilon : nat -> nat -> Vec2) (x0 : Vec3)
      (k : nat) :
  length u = Z.to_nat (T self) ->
  exists Sk vk,
    rollout self u epsilon x0 k = Ok (Sk, vk) /\
    length vk = Z.to_nat (T self).
Proof.
  intros Hu. unfold rollout.
  destruct (rollout_steps_ok u epsilon k (seq 1 (Z.to_nat (T self))))
    with (x := x0) (Sk := 0) (vk := @nil Vec2)
    as (x' & Sk' & vk' & Hrun & Hlen).
  { intros t Ht. apply in_seq in Ht. lia. }
  rewrite Hrun. cbn [bind].
  destruct (_phi_ok x') as [p Hp]. rewrite Hp. cbn [bind].
  exists (Sk' + p), vk'. split; [reflexivity|].
  rewrite Hlen, length_seq. reflexivity.
Qed.

Lemma rollouts_loop_ok (u : list Vec2) (epsilon : nat -> nat -> Vec2)
      (x0 : Vec3) (ks : list nat) :
  length u = Z.to_nat (T self) ->
  forall costs v,
  exists costs' v',
    for_each (fun Sv k =>
                '(Sk, vk) <- rollout self u epsilon x0 k ;;
                Ok (fst Sv ++ [Sk], snd Sv ++ [vk]))
             (costs, v) ks = Ok (costs', v') /\
    length costs' = (length costs + length ks)%nat.
Proof.
  intros Hu. induction ks as [|k ks IH]; intros costs v.
  - exists costs, v. split; [reflexivity | simpl; lia].
  - cbn [for_each].
    destruct (rollout_ok u epsilon x0 k Hu) as (Sk & vk & Hr & _).
    rewrite Hr. cbn [bind fst snd].
    destruct (IH (costs ++ [Sk]) (v ++ [vk])) as (costs' & v' & Hrun & Hlen).
    exists costs', v'. split; [exact Hrun|].
    rewrite Hlen, length_app. simpl. lia.
Qed.

Lemma length_weighted_noise (w : list R) (epsilon : nat -> nat -> Vec2) :
  length (weighted_noise self w epsilon) = Z.to_nat (T self).
Proof. unfold weighted_noise, range. now rewrite length_map, length_seq. Qed.

(** On a well configured solver whose buffer has one row per step, the
    lines up to the smoothing raise nothing. *)
Lemma smoothed_perturbation_ok (draw : nat -> nat -> Vec2) (x0 : Vec3)
      (u : list Vec2) :
  length u = Z.to_nat (T self) ->
  exists costs v w w_epsilon,
    smoothed_perturbation self draw x0 u = Ok (costs, v, w_epsilon) /\
    _compute_weights self costs = Ok w /\
    length costs = Z.to_nat (K self) /\
    _moving_average_filter (weighted_noise self w draw) 10 = Ok w_epsilon /\
    length w_epsilon = Z.to_nat (T self).
Proof.
  intros Hu.
  pose proof Hwf as (HT & HK & Hlam & Hdim & H0 & H1 & _).
  destruct (rollouts_loop_ok u draw x0 (range (K self)) Hu [] [])
    as (costs & v & Hrun & Hlen).
  unfold range in Hlen. rewrite length_seq in Hlen. simpl in Hlen.
  destruct (compute_weights_closed self costs) as (rho & _ & Hw).
  { destruct costs; [simpl in Hlen; lia | discriminate]. }
  { lia. }
  { exact Hlam. }
  match type of Hw with
  | _ = Ok ?w0 => set (w := w0) in *
  end.
  destruct (moving_average_ok (weighted_noise self w draw))
    as (out & Hout & Lout).
  { rewrite length_weighted_noise. lia. }
  exists costs, v, w, out.
  split.
  { unfold smoothed_perturbation, np_zeros1, _calc_epsilon.
    destruct (Z.ltb_spec (K self) 0) as [?|_]; [lia|].
    destruct (Z.ltb_spec (T self) 0) as [?|_]; [lia|].
    rewrite H0, H1, Hdim. cbn [Nat.eqb negb orb Nat.ltb Nat.leb bind].
    unfold rollouts. rewrite Hrun. cbn [bind].
    rewrite Hw. cbn [bind]. rewrite Hout. reflexivity. }
  split; [exact Hw|]. split; [exact Hlen|]. split; [exact Hout|].
  now rewrite Lout, length_weighted_noise.
Qed.

(** *** The update, the diagnostics and the shift *)

Lemma read_write_same (h : heap) (l : loc) (a : list Vec2) :
  (l < length h)%nat -> read (write h l a) l = a.
Proof.
  intros Hl. unfold read, write. rewrite nth_set_nth by exact Hl.
  now rewrite Nat.eqb_refl.
Qed.

Lemma length_write (h : heap) (l : loc) (a : list Vec2) :
  length (write h l a) = length h.
Proof. apply length_set_nth. Qed.

Lemma read_nonempty_valid (h : heap) (l : loc) :
  read h l <> [] -> (l < length h)%nat.
Proof.
  intros Hne. destruct (Nat.lt_ge_cases l (length h)) as [Hlt | Hge]; [exact Hlt|].
  exfalso. apply Hne. unfold read. now apply nth_overflow.
Qed.

Lemma set_nth_app_middle {A : Type} (l1 l2 : list A) (x y : A) :
  set_nth (l1 ++ x :: l2) (length l1) y = l1 ++ y :: l2.
Proof. induction l1 as [|z l1 IH]; simpl; [reflexivity | now rewrite IH]. Qed.

Lemma optimal_loop_ok (u : loc) (todo : list Vec2) :
  forall done x traj h,
    read h u = done ++ todo ->
    (u < length h)%nat ->
    exists x' traj' h',
      for_each (optimal_step self u) (x, traj, h)
               (seq (length done) (length todo)) = Ok (x', traj', h') /\
      read h' u = done ++ map (_g self) todo /\
      length h' = length h.
Proof.
  induction todo as [|t0 todo IH]; intros done x traj h Hread Hu.
  - exists x, traj, h. simpl. rewrite app_nil_r in *. auto.
  - cbn [length seq for_each]. unfold optimal_step at 1.
    rewrite Hread.
    rewrite (getitem_ok _ _ vzero) by (rewrite length_app; simpl; lia).
    rewrite app_nth2, Nat.sub_diag by lia. cbn [nth bind].
    rewrite set_nth_app_middle.
    match goal with
    | |- context [for_each _ (?x1, ?tr1, ?h1) _] =>
        destruct (IH (done ++ [_g self t0]) x1 tr1 h1)
          as (x' & traj' & h' & Hrun & Hr' & Hl')
    end.
    + rewrite read_write_same by exact Hu. now rewrite <- app_assoc.
    + now rewrite length_write.
    + rewrite length_app in Hrun. simpl in Hrun.
      rewrite Nat.add_1_r in Hrun.
      exists x', traj', h'. split; [exact Hrun|]. split.
      * rewrite Hr', <- app_assoc. reflexivity.
      * now rewrite Hl', length_write.
Qed.

Lemma skipn_tl_last {A : Type} (a : list A) (d : A) :
  a <> [] -> skipn (length (tl a)) a = [last a d].
Proof.
  induction a as [|x a IH]; intros Hne; [congruence|].
  destruct a as [|y a]; [reflexivity|].
  specialize (IH ltac:(discriminate)).
  simpl in IH. simpl. exact IH.
Qed.

Lemma set_nth_same {A : Type} (l : list A) (i : nat) (d : A) :
  set_nth l i (nth i l d) = l.
Proof.
  revert i. induction l as [|x l IH]; intros [|i]; simpl; try reflexivity.
  now rewrite IH.
Qed.

(** What a call does once the smoothed perturbation is known: the
    updated sequence is the buffer plus the perturbation; it is saturated
    when the optimal trajectory is computed; the buffer ends up holding
    that sequence shifted to the left, and the returned action and
    sequence are row 0 of the buffer and the buffer itself. *)
Lemma calc_control_input_spec (draw : nat -> nat -> Vec2) (x0 : Vec3)
      (h : heap) :
  buffer_ok self h ->
  exists costs v w w_epsilon updated out h',
    smoothed_perturbation self draw x0 (read h (u_prev self))
    = Ok (costs, v, w_epsilon) /\
    _compute_weights self costs = Ok w /\
    length costs = Z.to_nat (K self) /\
    _moving_average_filter (weighted_noise self w draw) 10 = Ok w_epsilon /\
    iadd (read h (u_prev self)) w_epsilon = Ok updated /\
    length updated = Z.to_nat (T self) /\
    calc_control_input self draw x0 h = Ok (out, h') /\
    action out = (u_prev self, 0%nat) /\
    sequence out = u_prev self /\
    read h' (u_prev self) =
    shift_left (if visualize_optimal_traj self
                then map (_g self) updated else updated).
Proof.
  intros Hbuf. unfold buffer_ok in Hbuf.
  pose proof Hwf as (HT & _).
  destruct (smoothed_perturbation_ok draw x0 _ Hbuf)
    as (costs & v & w & w_eps & Hsp & Hw & Hc & Hf & Hlen).
  set (u := u_prev self) in *.
  assert (Hu : (u < length h)%nat).
  { apply read_nonempty_valid. intros Hnil. rewrite Hnil in Hbuf.
    simpl in Hbuf. lia. }
  set (updated := map (fun p : Vec2 * Vec2 => vadd (fst p) (snd p))
                      (combine (read h u) w_eps)).
  assert (Hiadd : iadd (read h u) w_eps = Ok updated).
  { unfold iadd. rewrite Hbuf, Hlen, Nat.eqb_refl. reflexivity. }
  assert (Hupd : length updated = Z.to_nat (T self)).
  { unfold updated. rewrite length_map, length_combine, Hbuf, Hlen.
    apply Nat.min_id. }
  set (final := if visualize_optimal_traj self
                then map (_g self) updated else updated).
  assert (Hfinal : length final = Z.to_nat (T self)).
  { unfold final. destruct (visualize_optimal_traj self);
      [rewrite length_map|]; exact Hupd. }
  assert (Hopt : exists traj h1,
             (if visualize_optimal_traj self
              then
                '(_, traj, h) <- for_each (optimal_step self u)
                                   (x0, [], write h u updated)
                                   (range (T self)) ;;
                Ok (traj, h)
              else Ok (repeat (0, 0, 0) (Z.to_nat (T self)),
                       write h u updated)) = Ok (traj, h1) /\
             read h1 u = final /\ length h1 = length h).
  { unfold final. destruct (visualize_optimal_traj self).
    - destruct (optimal_loop_ok u updated [] x0 [] (write h u updated))
        as (x' & traj' & h' & Hrun & Hr' & Hl').
      + now rewrite read_write_same.
      + now rewrite length_write.
      + unfold range. rewrite <- Hupd. simpl in Hrun. rewrite Hrun.
        cbn [bind]. exists traj', h'. rewrite length_write in Hl'. auto.
    - eexists _, _. split; [reflexivity|].
      rewrite read_write_same, length_write by exact Hu. auto. }
  destruct Hopt as (traj & h1 & Hopt & Hr1 & Hl1).
  assert (Hne : final <> []).
  { intros Hnil. rewrite Hnil in Hfinal. simpl in Hfinal. lia. }
  exists costs, v, w, w_eps, updated.
  unfold calc_control_input. fold u.
  rewrite Hsp. cbn [bind]. rewrite Hiadd. cbn [bind].
  rewrite Hopt. cbn [bind]. rewrite Hr1.
  unfold assign_init.
  assert (Htl : length (tl final) = (length final - 1)%nat)
    by (destruct final; simpl; lia).
  rewrite Htl, Nat.eqb_refl. cbn [bind].
  rewrite <- Htl, (skipn_tl_last final vzero Hne).
  fold (shift_left final).
  rewrite !read_write_same by (rewrite ?length_write; lia).
  unfold neg_index.
  assert (Hsl : length (shift_left final) = Datatypes.S (length (tl final))).
  { unfold shift_left. rewrite length_app. simpl. lia. }
  rewrite Hsl. cbn [Nat.leb bind Nat.sub].
  rewrite Nat.sub_0_r.
  rewrite (getitem_ok _ _ vzero) by lia. cbn [bind].
  rewrite set_nth_same.
  rewrite !read_write_same by (rewrite ?length_write; lia).
  rewrite (getitem_ok _ _ vzero) by lia. cbn [bind].
  eexists _, _. repeat split; try reflexivity; try assumption.
  cbn [fst]. rewrite read_write_same by (rewrite ?length_write; lia).
  reflexivity.
Qed.

End Success.

(** *** The solver of the notebook's main cell *)

Lemma init_main (horizon samples : Z) (optimal : bool) :
  (0 <= horizon)%Z ->
  __init__ (main_config horizon samples optimal) [] =
  Ok (main_controller horizon samples optimal,
      [repeat vzero (Z.to_nat horizon)]).
Proof.
  intros Hh. unfold __init__, np_zeros2, main_config. cbn [cfg_horizon_step_T].
  destruct (Z.ltb_spec horizon 0) as [?|_]; [lia|]. reflexivity.
Qed.

Lemma main_controller_wf (samples : Z) (optimal : bool) :
  (1 <= samples)%Z -> well_configured (main_controller 10 samples optimal).
Proof.
  intros Hs. unfold well_configured, main_controller. simpl.
  repeat split; try lia; try lra.
Qed.

Lemma main_buffer_ok (samples : Z) (optimal : bool) :
  buffer_ok (main_controller 10 samples optimal) [repeat vzero 10].
Proof. reflexivity. Qed.

Lemma single_sample_weights (self : MPPIControllerForDifferentialDrive)
      (costs w : list R) :
  K self = 1%Z ->
  param_lambda self <> 0 ->
  length costs = 1%nat ->
  _compute_weights self costs = Ok w ->
  exists w0, w = [w0] /\ w0 = 1.
Proof.
  intros HK Hlam Hlen Hw.
  destruct costs as [|s [|? ?]]; try discriminate.
  destruct (compute_weights_closed self [s]) as (rho & Hrho & Hw');
    [discriminate | simpl; lia | exact Hlam |].
  rewrite Hw' in Hw. injection Hw as <-.
  simpl in Hrho. injection Hrho as <-.
  eexists. split; [reflexivity|]. simpl.
  replace (s - s) with 0 by ring. rewrite Rmult_0_r, exp_0. field.
Qed.

Lemma filter_column_10 (a : nat -> R) :
  exists out,
    filter_column (map a (seq 0 10)) 10 = Ok out /\
    out = window_average_10 a.
Proof.
  unfold filter_column.
  rewrite convolve_same_long; [| discriminate | simpl; lia].
  rewrite !repeat_length.
  cbn [bind length map seq fold_left nth repeat Nat.sub Nat.add Nat.eqb
       Nat.leb Nat.ltb andb Nat.div Nat.divmod fst for_each Nat.modulo snd].
  unfold scale_at, neg_index.
  cbn [getitem nth_error bind set_nth length Nat.leb Nat.sub].
  eexists. split; [reflexivity|].
  rewrite !INR_IZR_INZ. cbn [Z.of_nat Pos.of_succ_nat Pos.succ].
  unfold window_average_10. cbv zeta.
  repeat (apply (f_equal2 cons); [lra|]). reflexivity.
Qed.

(** With a single sample on a horizon of 10 the smoothed perturbation is
    the window average of that sample's noise. *)
Lemma single_sample_w_epsilon (self : MPPIControllerForDifferentialDrive)
      (draw : nat -> nat -> Vec2) (w : list R) (w_epsilon : list Vec2) :
  K self = 1%Z -> T self = 10%Z ->
  (exists w0, w = [w0] /\ w0 = 1) ->
  _moving_average_filter (weighted_noise self w draw) 10 = Ok w_epsilon ->
  w_epsilon = combine (window_average_10 (fun t => fst (draw 0%nat t)))
                      (window_average_10 (fun t => snd (draw 0%nat t))).
Proof.
  intros HK HT [w0 [-> Hw0]] Hf.
  unfold _moving_average_filter, weighted_noise, range in Hf.
  rewrite HK, HT in Hf.
  change (Z.to_nat 1) with 1%nat in Hf. change (Z.to_nat 10) with 10%nat in Hf.
  rewrite !map_map in Hf.
  destruct (filter_column_10
              (fun t => fst (fold_left
                               (fun acc k => vadd acc (vscale (nth k [w0] 0) (draw k t)))
                               (seq 0 1) vzero)))
    as (c0 & H0 & E0).
  destruct (filter_column_10
              (fun t => snd (fold_left
                               (fun acc k => vadd acc (vscale (nth k [w0] 0) (draw k t)))
                               (seq 0 1) vzero)))
    as (c1 & H1 & E1).
  rewrite H0, H1 in Hf. cbn [bind] in Hf. injection Hf as <-.
  rewrite E0, E1. unfold window_average_10.
  cbn [seq fold_left nth vadd vscale vzero fst snd]. rewrite Hw0.
  repeat (apply (f_equal2 cons); [apply f_equal2; lra|]). reflexivity.
Qed.

(** One call on the solver built from [main_config] with a horizon of 10
    and a single sample, on its fresh buffer of zeros. *)
Lemma main_single_call (optimal : bool) (draw : nat -> nat -> Vec2)
      (x0 : Vec3) :
  exists costs v w_epsilon updated out h',
    smoothed_perturbation (main_controller 10 1 optimal) draw x0
                          (read [repeat vzero 10] 0%nat)
    = Ok (costs, v, w_epsilon) /\
    iadd (read [repeat vzero 10] 0%nat) w_epsilon = Ok updated /\
    updated = combine (window_average_10 (fun t => fst (draw 0%nat t)))
                      (window_average_10 (fun t => snd (draw 0%nat t))) /\
    calc_control_input (main_controller 10 1 optimal) draw x0
                       [repeat vzero 10] = Ok (out, h') /\
    action out = (0%nat, 0%nat) /\
    sequence out = 0%nat /\
    read h' 0%nat =
    shift_left (if optimal
                then map (_g (main_controller 10 1 optimal)) updated
                else updated).
Proof.
  set (self := main_controller 10 1 optimal).
  assert (Hwf : well_configured self) by (apply main_controller_wf; lia).
  destruct (calc_control_input_spec self Hwf draw x0 [repeat vzero 10]
              (main_buffer_ok 1 optimal))
    as (costs & v & w & w_eps & updated & out & h' &
        Hsp & Hw & Hc & Hf & Hadd & _ & Hcall & Hact & Hseq & Hread).
  assert (Hw1 : exists w0, w = [w0] /\ w0 = 1).
  { apply (single_sample_weights self costs w); try reflexivity;
      [simpl; lra | exact Hc | exact Hw]. }
  pose proof (single_sample_w_epsilon self draw w w_eps eq_refl eq_refl Hw1 Hf)
    as Heps.
  assert (Hupd : updated =
                 combine (window_average_10 (fun t => fst (draw 0%nat t)))
                         (window_average_10 (fun t => snd (draw 0%nat t)))).
  { clear - Heps Hadd. rewrite Heps in Hadd.
    unfold iadd, window_average_10 in Hadd.
    cbn [u_prev self main_controller read nth repeat combine length Nat.eqb
         map] in Hadd.
    injection Hadd as <-.
    unfold window_average_10, vadd, vzero. cbn [combine fst snd].
    repeat (apply (f_equal2 cons); [apply f_equal2; lra|]). reflexivity. }
  exists costs, v, w_eps, updated, out, h'.
  repeat split; assumption.
Qed.

Example shift_left_three (a b c : Vec2) :
  shift_left [a; b; c] = [b; c; c].
Proof. reflexivity. Qed.

(** C1 on the failing input: horizon 10, one sample, a fresh solver, and
    a noise draw that is (1, 0) at step 0 and zero afterwards. The updated
    sequence starts with (1/5, 0), but the action that is returned is its
    second entry (1/6, 0): the shift has moved it to row 0 of the array
    that the returned view points into. *)
Theorem C1_returned_action_after_shift :
  exists costs v w_epsilon updated out h',
    __init__ (main_config 10 1 false) []
    = Ok (main_controller 10 1 false, [repeat vzero 10]) /\
    smoothed_perturbation (main_controller 10 1 false)
                          (draw_step (1, 0) (0, 0)) (0, 0, 0)
                          (read [repeat vzero 10] 0%nat)
    = Ok (costs, v, w_epsilon) /\
    iadd (read [repeat vzero 10] 0%nat) w_epsilon = Ok updated /\
    calc_control_input (main_controller 10 1 false)
                       (draw_step (1, 0) (0, 0)) (0, 0, 0)
                       [repeat vzero 10] = Ok (out, h') /\
    nth 0 updated vzero = (1 / 5, 0) /\
    nth 1 updated vzero = (1 / 6, 0) /\
    read_view h' (action out) = (1 / 6, 0) /\
    read_view h' (action out) <> nth 0 updated vzero.
Proof.
  destruct (main_single_call false (draw_step (1, 0) (0, 0)) (0, 0, 0))
    as (costs & v & w_eps & updated & out & h' &
        Hsp & Hadd & Hupd & Hcall & Hact & Hseq & Hread).
  exists costs, v, w_eps, updated, out, h'.
  split; [exact (init_main 10 1 false ltac:(lia))|].
  split; [exact Hsp|]. split; [exact Hadd|]. split; [exact Hcall|].
  unfold read_view. rewrite Hact. cbn [fst snd]. rewrite Hread, Hupd.
  unfold window_average_10.
  cbn [draw_step fst snd combine shift_left tl nth app].
  assert (H5 : ((1 + 0 + 0 + 0 + 0) / 5, (0 + 0 + 0 + 0 + 0) / 5) = (1 / 5, 0))
    by (apply f_equal2; lra).
  assert (H6 : ((1 + 0 + 0 + 0 + 0 + 0) / 6, (0 + 0 + 0 + 0 + 0 + 0) / 6)
               = (1 / 6, 0)) by (apply f_equal2; lra).
  rewrite H5, H6. repeat split; try reflexivity.
  intros Heq. injection Heq as Heq. lra.
Qed.

(** C3 on the same failing input. The buffer holds the updated sequence
    shifted to the left, but the sequence that the call returns is that
    very buffer, not the updated sequence: stored row 0 is (1/6, 0) while
    row 1 of the returned sequence is (1/7, 0). *)
Theorem C3_buffer_is_returned_sequence :
  exists costs v w_epsilon updated out h',
    __init__ (main_config 10 1 false) []
    = Ok (main_controller 10 1 false, [repeat vzero 10]) /\
    smoothed_perturbation (main_controller 10 1 false)
                          (draw_step (1, 0) (0, 0)) (0, 0, 0)
                          (read [repeat vzero 10] 0%nat)
    = Ok (costs, v, w_epsilon) /\
    iadd (read [repeat vzero 10] 0%nat) w_epsilon = Ok updated /\
    calc_control_input (main_controller 10 1 false)
                       (draw_step (1, 0) (0, 0)) (0, 0, 0)
                       [repeat vzero 10] = Ok (out, h') /\
    read h' (u_prev (main_controller 10 1 false)) = shift_left updated /\
    read h' (sequence out) = read h' (u_prev (main_controller 10 1 false)) /\
    nth 0 (read h' (u_prev (main_controller 10 1 false))) vzero = (1 / 6, 0) /\
    nth 1 (read h' (sequence out)) vzero = (1 / 7, 0) /\
    nth 0 (read h' (u_prev (main_controller 10 1 false))) vzero
    <> nth 1 (read h' (sequence out)) vzero.
Proof.
  destruct (main_single_call false (draw_step (1, 0) (0, 0)) (0, 0, 0))
    as (costs & v & w_eps & updated & out & h' &
        Hsp & Hadd & Hupd & Hcall & Hact & Hseq & Hread).
  exists costs, v, w_eps, updated, out, h'.
  split; [exact (init_main 10 1 false ltac:(lia))|].
  split; [exact Hsp|]. split; [exact Hadd|]. split; [exact Hcall|].
  rewrite Hseq. cbn [u_prev main_controller].
  split; [exact Hread|]. split; [reflexivity|].
  rewrite Hread, Hupd.
  unfold window_average_10.
  cbn [draw_step fst snd combine shift_left tl nth app].
  assert (H6 : ((1 + 0 + 0 + 0 + 0 + 0) / 6, (0 + 0 + 0 + 0 + 0 + 0) / 6)
               = (1 / 6, 0)) by (apply f_equal2; lra).
  assert (H7 : ((1 + 0 + 0 + 0 + 0 + 0 + 0) / 7, (0 + 0 + 0 + 0 + 0 + 0 + 0) / 7)
               = (1 / 7, 0)) by (apply f_equal2; lra).
  rewrite H6, H7. repeat split; try reflexivity.
  intros Heq. injection Heq as Heq. lra.
Qed.

(** ** Horizons shorter than the smoothing window *)

Section ShortHorizon.

Variable self : MPPIControllerForDifferentialDrive.
Hypothesis HT : (0 <= T self < 10)%Z.
Hypothesis HK : (1 <= K self)%Z.
Hypothesis Hlam : param_lambda self <> 0.
Hypothesis Hdim : dim_u self = 2%nat.
Hypothesis Hrows : shape0 (Sigma self) = 2%nat.
Hypothesis Hcols : shape1 (Sigma self) = 2%nat.
Hypothesis Hdet :
  entry (Sigma self) 0 0 * entry (Sigma self) 1 1
  - entry (Sigma self) 0 1 * entry (Sigma self) 1 0 <> 0.
Hypothesis Hstage : (3 <= length (stage_cost_weight self))%nat.
Hypothesis Hterminal : (3 <= length (terminal_cost_weight self))%nat.

(** The rollouts do not depend on the length of the horizon to run. *)
Lemma short_rollout_steps (u : list Vec2) (epsilon : nat -> nat -> Vec2)
      (k : nat) (ts : list nat) :
  (forall t, In t ts -> (t - 1 < length u)%nat) ->
  forall st, exists st',
    for_each (rollout_step self u epsilon k) st ts = Ok st'.
Proof.
  induction ts as [|t ts IH]; intros Hin [[x Sk] vk].
  - eexists. reflexivity.
  - cbn [for_each]. unfold rollout_step at 1.
    rewrite (getitem_ok u (t - 1) vzero) by (apply Hin; now left).
    cbn [bind].
    match goal with
    | |- context [_c self ?y] =>
        assert (Hc : exists c, _c self y = Ok c);
        [ unfold _c; destruct y as [[x1 y1] yaw1];
          destruct (goal self) as [[gx gy] gyaw];
          rewrite !(getitem_ok _ _ 0) by lia; cbn [bind]; eexists; reflexivity
        | destruct Hc as [c Hc]; rewrite Hc ]
    end.
    unfold np_linalg_inv. rewrite Hrows, Hcols. cbn [Nat.eqb andb negb].
    destruct (Req_dec_T _ 0) as [Hz|_]; [contradiction|].
    cbn [bind]. apply IH. intros t' Ht'. apply Hin. now right.
Qed.

Lemma short_rollouts (u : list Vec2) (epsilon : nat -> nat -> Vec2)
      (x0 : Vec3) (ks : list nat) :
  length u = Z.to_nat (T self) ->
  forall costs v,
  exists costs' v',
    for_each (fun Sv k =>
                '(Sk, vk) <- rollout self u epsilon x0 k ;;
                Ok (fst Sv ++ [Sk], snd Sv ++ [vk]))
             (costs, v) ks = Ok (costs', v') /\
    length costs' = (length costs + length ks)%nat.
Proof.
  intros Hu. induction ks as [|k ks IH]; intros costs v.
  - exists costs, v. split; [reflexivity | simpl; lia].
  - cbn [for_each]. unfold rollout at 1.
    destruct (short_rollout_steps u epsilon k (seq 1 (Z.to_nat (T self))))
      with (st := (x0, 0, @nil Vec2)) as ([[x' Sk'] vk'] & Hrun).
    { intros t Ht. apply in_seq in Ht. lia. }
    rewrite Hrun. cbn [bind].
    assert (Hp : exists p, _phi self x' = Ok p).
    { unfold _phi. destruct x' as [[x1 y1] yaw1].
      destruct (goal self) as [[gx gy] gyaw].
      rewrite !(getitem_ok _ _ 0) by lia. cbn [bind]. eexists. reflexivity. }
    destruct Hp as [p Hp]. rewrite Hp. cbn [bind fst snd].
    destruct (IH (costs ++ [Sk' + p]) (v ++ [vk']))
      as (costs' & v' & Hrest & Hlen).
    exists costs', v'. split; [exact Hrest|].
    rewrite Hlen, length_app. simpl. lia.
Qed.

(** The rollouts and the weights are computed; the weighted perturbation
    has one entry per horizon step, fewer than the window of 10, and the
    smoothing raises. *)
Lemma short_horizon_perturbation (draw : nat -> nat -> Vec2) (x0 : Vec3)
      (u : list Vec2) :
  length u = Z.to_nat (T self) ->
  exists costs v w,
    rollouts self u draw x0 = Ok (costs, v) /\
    length costs = Z.to_nat (K self) /\
    _compute_weights self costs = Ok w /\
    _moving_average_filter (weighted_noise self w draw) 10
    = Raise ValueError /\
    smoothed_perturbation self draw x0 u = Raise ValueError.
Proof.
  intros Hu.
  destruct (short_rollouts u draw x0 (range (K self)) Hu [] [])
    as (costs & v & Hrun & Hlen).
  unfold range in Hlen. rewrite length_seq in Hlen. simpl in Hlen.
  destruct (compute_weights_closed self costs) as (rho & _ & Hw).
  { destruct costs; [simpl in Hlen; lia | discriminate]. }
  { lia. }
  { exact Hlam. }
  match type of Hw with
  | _ = Ok ?w0 => set (w := w0) in *
  end.
  assert (Hf : _moving_average_filter (weighted_noise self w draw) 10
               = Raise ValueError).
  { unfold _moving_average_filter. rewrite filter_column_short; [reflexivity|].
    rewrite length_map, length_weighted_noise. lia. }
  exists costs, v, w.
  split; [exact Hrun|]. split; [exact Hlen|]. split; [exact Hw|].
  split; [exact Hf|].
  unfold smoothed_perturbation, np_zeros1, _calc_epsilon.
  destruct (Z.ltb_spec (K self) 0) as [?|_]; [lia|].
  destruct (Z.ltb_spec (T self) 0) as [?|_]; [lia|].
  rewrite Hrows, Hcols, Hdim. cbn [Nat.eqb negb orb Nat.ltb Nat.leb bind].
  unfold rollouts in Hrun. unfold rollouts. rewrite Hrun. cbn [bind].
  rewrite Hw. cbn [bind]. rewrite Hf. reflexivity.
Qed.

(** Every call on a solver whose horizon is shorter than the window
    raises [ValueError]. *)
Lemma short_horizon_ValueError (draw : nat -> nat -> Vec2) (x0 : Vec3)
      (h : heap) :
  buffer_ok self h ->
  calc_control_input self draw x0 h = Raise ValueError.
Proof.
  intros Hbuf. unfold calc_control_input.
  destruct (short_horizon_perturbation draw x0 (read h (u_prev self)) Hbuf)
    as (costs & v & w & _ & _ & _ & _ & Hsp).
  rewrite Hsp. reflexivity.
Qed.

End ShortHorizon.

(** C8 on the failing input: a solver built with a horizon of 3 and one
    sample, and a noise draw of (1, 2) at every step. The rollouts and the
    weights are computed, and the weighted perturbation handed to the
    filter is the constant sequence of three (1, 2). Its convolution with
    the window of 10 has 10 entries, which cannot be assigned to a column
    of 3: the filter raises [ValueError] instead of returning the
    sequence unchanged, and so does the call. On constant sequences of at
    least 10 entries the filter does return its input unchanged. *)
Theorem C8_smoothing_raises_below_window :
  exists costs v w,
    __init__ (main_config 3 1 false) []
    = Ok (main_controller 3 1 false, [repeat vzero 3]) /\
    rollouts (main_controller 3 1 false) (read [repeat vzero 3] 0%nat)
             (draw_step (1, 2) (1, 2)) (0, 0, 0) = Ok (costs, v) /\
    _compute_weights (main_controller 3 1 false) costs = Ok w /\
    weighted_noise (main_controller 3 1 false) w (draw_step (1, 2) (1, 2))
    = repeat (1, 2) 3 /\
    _moving_average_filter (repeat (1, 2) 3) 10 = Raise ValueError /\
    _moving_average_filter (repeat (1, 2) 3) 10 <> Ok (repeat (1, 2) 3) /\
    calc_control_input (main_controller 3 1 false) (draw_step (1, 2) (1, 2))
                       (0, 0, 0) [repeat vzero 3] = Raise ValueError /\
    (forall (c : Vec2) (n : nat),
        (10 <= n)%nat ->
        _moving_average_filter (repeat c n) 10 = Ok (repeat c n)).
Proof.
  set (self := main_controller 3 1 false).
  set (draw := draw_step (1, 2) (1, 2)).
  assert (HT : (0 <= T self < 10)%Z) by (simpl; lia).
  assert (HK : (1 <= K self)%Z) by (simpl; lia).
  assert (Hlam : param_lambda self <> 0) by (simpl; lra).
  assert (Hdet : entry (Sigma self) 0 0 * entry (Sigma self) 1 1
                 - entry (Sigma self) 0 1 * entry (Sigma self) 1 0 <> 0)
    by (simpl; lra).
  assert (Hstage : (3 <= length (stage_cost_weight self))%nat)
    by (simpl; lia).
  assert (Hterminal : (3 <= length (terminal_cost_weight self))%nat)
    by (simpl; lia).
  destruct (short_horizon_perturbation self HT HK Hlam eq_refl eq_refl eq_refl
              Hdet Hstage Hterminal draw (0, 0, 0)
              (read [repeat vzero 3] 0%nat) eq_refl)
    as (costs & v & w & Hrun & Hlen & Hw & _ & _).
  destruct (single_sample_weights self costs w eq_refl Hlam Hlen Hw)
    as (w0 & -> & ->).
  assert (Hraise : _moving_average_filter (repeat (1, 2) 3) 10
                   = Raise ValueError).
  { unfold _moving_average_filter.
    rewrite filter_column_short; [reflexivity | simpl; lia]. }
  exists costs, v, [1].
  split; [exact (init_main 3 1 false ltac:(lia))|].
  split; [exact Hrun|]. split; [exact Hw|]. split.
  { unfold weighted_noise, range, self, draw.
    cbn [T K main_controller].
    change (Z.to_nat 3) with 3%nat. change (Z.to_nat 1) with 1%nat.
    cbn [map seq fold_left nth draw_step repeat].
    unfold vadd, vscale, vzero. cbn [fst snd].
    repeat (apply (f_equal2 cons); [apply f_equal2; lra|]). reflexivity. }
  split; [exact Hraise|].
  split; [rewrite Hraise; discriminate|].
  split.
  - exact (short_horizon_ValueError self HT HK Hlam eq_refl eq_refl eq_refl
             Hdet Hstage Hterminal draw (0, 0, 0) [repeat vzero 3] eq_refl).
  - intros c n Hn. now apply moving_average_constant.
Qed.

(** ** Saturation of the returned action *)

Lemma np_clip_bounds (x m : R) : 0 <= m -> - m <= np_clip x (- m) m <= m.
Proof.
  intros Hm. unfold np_clip. split.
  - apply Rmin_glb; [apply Rmax_r | lra].
  - apply Rmin_r.
Qed.

Lemma _g_within_limits (self : MPPIControllerForDifferentialDrive) (v : Vec2) :
  0 <= max_linear_vel self -> 0 <= max_angular_vel self ->
  within_limits self (_g self v).
Proof.
  intros Hl Ha. unfold within_limits, _g. cbn [fst snd].
  split; apply np_clip_bounds; assumption.
Qed.

(** The plant saturates the control it is given: applying a control and
    applying its saturation lead to the same state. *)
Lemma plant_update_saturates (robot : DifferentialDriveRobot.t)
      (u : Vec2) (dt : R) :
  let vmax := DifferentialDriveRobot.max_linear_vel robot in
  let wmax := DifferentialDriveRobot.max_angular_vel robot in
  0 <= vmax -> 0 <= wmax ->
  DifferentialDriveRobot.update robot u dt =
  DifferentialDriveRobot.update robot
    (np_clip (fst u) (- vmax) vmax, np_clip (snd u) (- wmax) wmax) dt.
Proof.
  intros vmax wmax Hl Ha. unfold DifferentialDriveRobot.update. cbn [fst snd].
  fold vmax wmax.
  assert (Hidem : forall x m, 0 <= m ->
                    np_clip (np_clip x (- m) m) (- m) m = np_clip x (- m) m).
  { intros x m Hm. pose proof (np_clip_bounds x m Hm) as [Hlo Hhi].
    unfold np_clip at 1. rewrite Rmax_left by exact Hlo.
    now rewrite Rmin_left. }
  rewrite !Hidem by assumption. reflexivity.
Qed.

(** C2, as the code has it: the call returns its action without
    saturating it on the return path, and the limits are enforced where
    the action is applied. On a well configured solver the call succeeds;
    the plant, given the returned action, moves exactly as it does under
    the saturated action [_g action], and both components of that
    saturated action are within the (non-negative) limits. *)
Theorem C2_saturated_by_plant
        (self : MPPIControllerForDifferentialDrive)
        (draw : nat -> nat -> Vec2) (x0 : Vec3) (h : heap)
        (robot : DifferentialDriveRobot.t) (dt : R) :
  well_configured self ->
  buffer_ok self h ->
  0 <= max_linear_vel self ->
  0 <= max_angular_vel self ->
  DifferentialDriveRobot.max_linear_vel robot = max_linear_vel self ->
  DifferentialDriveRobot.max_angular_vel robot = max_angular_vel self ->
  exists out h',
    calc_control_input self draw x0 h = Ok (out, h') /\
    within_limits self (_g self (read_view h' (action out))) /\
    DifferentialDriveRobot.update robot (read_view h' (action out)) dt
    = DifferentialDriveRobot.update robot
        (_g self (read_view h' (action out))) dt.
Proof.
  intros Hwf Hbuf Hl Ha Hvl Hva.
  destruct (calc_control_input_spec self Hwf draw x0 h Hbuf)
    as (costs & v & w & w_eps & updated & out & h' &
        _ & _ & _ & _ & _ & _ & Hcall & _).
  exists out, h'. split; [exact Hcall|].
  split; [now apply _g_within_limits|].
  rewrite (plant_update_saturates robot (read_view h' (action out)) dt)
    by (rewrite ?Hvl, ?Hva; assumption).
  unfold _g. now rewrite Hvl, Hva.
Qed.

Lemma C2_saturated_by_plant_witness :
  exists out h',
    calc_control_input (main_controller 10 1 false) (draw_step (0, 3) (0, 3))
                       (0, 0, 0) [repeat vzero 10] = Ok (out, h') /\
    within_limits (main_controller 10 1 false)
                  (_g (main_controller 10 1 false)
                      (read_view h' (action out))) /\
    DifferentialDriveRobot.update
      (DifferentialDriveRobot.mkRobot 2 2 0.05 (0, 0, 0))
      (read_view h' (action out)) 0.1
    = DifferentialDriveRobot.update
        (DifferentialDriveRobot.mkRobot 2 2 0.05 (0, 0, 0))
        (_g (main_controller 10 1 false) (read_view h' (action out))) 0.1.
Proof.
  apply (C2_saturated_by_plant (main_controller 10 1 false)).
  - apply main_controller_wf. lia.
  - apply main_buffer_ok.
  - simpl. lra.
  - simpl. lra.
  - reflexivity.
  - reflexivity.
Defined.

(** C2 as stated fails: on a solver built with the diagnostics at their
    default (off), one sample and a noise draw of (0, 3) at every step,
    the returned action is (0, 3), above the limit of 2 on the angular
    velocity. *)
Lemma C2_unsaturated_counterexample :
  exists out h',
    __init__ (main_config 10 1 false) []
    = Ok (main_controller 10 1 false, [repeat vzero 10]) /\
    calc_control_input (main_controller 10 1 false) (draw_step (0, 3) (0, 3))
                       (0, 0, 0) [repeat vzero 10] = Ok (out, h') /\
    read_view h' (action out) = (0, 3) /\
    ~ within_limits (main_controller 10 1 false) (read_view h' (action out)).
Proof.
  destruct (main_single_call false (draw_step (0, 3) (0, 3)) (0, 0, 0))
    as (costs & v & w_eps & updated & out & h' &
        Hsp & Hadd & Hupd & Hcall & Hact & Hseq & Hread).
  exists out, h'.
  split; [exact (init_main 10 1 false ltac:(lia))|]. split; [exact Hcall|].
  assert (Hval : read_view h' (action out) = (0, 3)).
  { unfold read_view. rewrite Hact. cbn [fst snd]. rewrite Hread, Hupd.
    unfold window_average_10.
    cbn [draw_step fst snd combine shift_left tl nth app].
    apply f_equal2; lra. }
  split; [exact Hval|].
  rewrite Hval. unfold within_limits. simpl. lra.
Qed.

(** ** Configuration errors *)

Lemma init_ok (c : Config) (h : heap) :
  (0 <= cfg_horizon_step_T c)%Z ->
  exists self,
    __init__ c h =
    Ok (self, h ++ [repeat vzero (Z.to_nat (cfg_horizon_step_T c))]) /\
    T self = cfg_horizon_step_T c /\
    K self = cfg_number_of_samples_K c /\
    Sigma self = cfg_sigma c /\
    dim_u self = 2%nat /\
    u_prev self = length h.
Proof.
  intros HT. unfold __init__, np_zeros2.
  destruct (Z.ltb_spec (cfg_horizon_step_T c) 0) as [?|_]; [lia|].
  cbn [bind alloc]. eexists. split; [reflexivity|]. repeat split.
Qed.

(** A covariance of the wrong shape or a sample count that is not
    positive makes the call raise [ValueError]. *)
Lemma calc_control_input_rejects (self : MPPIControllerForDifferentialDrive)
      (draw : nat -> nat -> Vec2) (x0 : Vec3) (h : heap) :
  (0 <= T self)%Z ->
  dim_u self = 2%nat ->
  shape0 (Sigma self) <> shape1 (Sigma self) \/
  shape0 (Sigma self) <> 2%nat \/
  (K self <= 0)%Z ->
  calc_control_input self draw x0 h = Raise ValueError.
Proof.
  intros HT Hdim Hbad.
  assert (Hsp : smoothed_perturbation self draw x0 (read h (u_prev self))
                = Raise ValueError).
  { unfold smoothed_perturbation, np_zeros1.
    destruct (Z.ltb_spec (K self) 0) as [HK|HK]; [reflexivity|].
    cbn [bind]. unfold _calc_epsilon. rewrite Hdim.
    destruct (Nat.eqb_spec (shape0 (Sigma self)) (shape1 (Sigma self)))
      as [Hsq|Hsq]; [|reflexivity].
    destruct (Nat.eqb_spec (shape0 (Sigma self)) 2) as [H2|H2]; [|reflexivity].
    cbn [negb orb Nat.ltb Nat.leb].
    destruct (Z.ltb_spec (K self) 0) as [?|_]; [lia|].
    destruct (Z.ltb_spec (T self) 0) as [?|_]; [lia|].
    cbn [orb bind].
    destruct Hbad as [Hbad | [Hbad | Hbad]]; try contradiction.
    assert (HK0 : K self = 0%Z) by lia.
    unfold rollouts, range, _compute_weights, np_zeros1. rewrite HK0.
    reflexivity. }
  unfold calc_control_input. rewrite Hsp. reflexivity.
Qed.

(** C7, as the code has it: the constructor checks nothing (it fails only
    on a negative horizon, in [np.zeros]); a covariance that is not
    square or not of dimension 2, and a sample count that is not
    positive, are accepted by the constructor and make every call of
    [calc_control_input] raise [ValueError]. *)
Theorem C7_configuration_checked_at_call (c : Config) (h : heap) :
  ((cfg_horizon_step_T c < 0)%Z -> __init__ c h = Raise ValueError) /\
  ((0 <= cfg_horizon_step_T c)%Z ->
   exists self h',
     __init__ c h = Ok (self, h') /\
     (shape0 (cfg_sigma c) <> shape1 (cfg_sigma c) \/
      shape0 (cfg_sigma c) <> 2%nat \/
      (cfg_number_of_samples_K c <= 0)%Z ->
      forall draw x0, calc_control_input self draw x0 h' = Raise ValueError)).
Proof.
  split.
  - intros HT. unfold __init__, np_zeros2.
    destruct (Z.ltb_spec (cfg_horizon_step_T c) 0) as [_|?]; [reflexivity | lia].
  - intros HT.
    destruct (init_ok c h HT) as (self & Hinit & HTs & HKs & HSs & Hdim & _).
    exists self, (h ++ [repeat vzero (Z.to_nat (cfg_horizon_step_T c))]).
    split; [exact Hinit|].
    intros Hbad draw x0. apply calc_control_input_rejects.
    + now rewrite HTs.
    + exact Hdim.
    + now rewrite HSs, HKs.
Qed.

Lemma C7_configuration_witness :
  exists self h',
    __init__ (main_config 10 0 false) [] = Ok (self, h') /\
    forall draw x0, calc_control_input self draw x0 h' = Raise ValueError.
Proof.
  destruct (proj2 (C7_configuration_checked_at_call (main_config 10 0 false) []))
    as (self & h' & Hinit & Hcall).
  - simpl. lia.
  - exists self, h'. split; [exact Hinit|].
    apply Hcall. right. right. simpl. lia.
Defined.

(** C7 as stated fails: a 3 x 3 covariance passes the constructor and is
    only rejected, with [ValueError], inside [calc_control_input]; a
    covariance that is not positive definite (minus the identity) passes
    both the constructor and the call. *)
Lemma C7_configuration_counterexample :
  (exists self h',
      __init__ (with_sigma (main_config 10 50 false) (mkMatrix 3 3 (fun _ _ => 1)))
           [] = Ok (self, h') /\
      calc_control_input self (draw_step (0, 0) (0, 0)) (0, 0, 0) h'
      = Raise ValueError) /\
  (exists self h' out h'',
      __init__ (with_sigma (main_config 10 50 false) (matrix2 (-1) 0 0 (-1)))
           [] = Ok (self, h') /\
      calc_control_input self (draw_step (0, 0) (0, 0)) (0, 0, 0) h'
      = Ok (out, h'')).
Proof.
  split.
  - destruct (init_ok (with_sigma (main_config 10 50 false)
                                  (mkMatrix 3 3 (fun _ _ => 1))) [])
      as (self & Hinit & HTs & HKs & HSs & Hdim & _); [simpl; lia|].
    eexists self, _. split; [exact Hinit|].
    apply calc_control_input_rejects.
    + rewrite HTs. simpl. lia.
    + exact Hdim.
    + right. left. rewrite HSs. simpl. lia.
  - eexists _, _.
    assert (Hinit : __init__ (with_sigma (main_config 10 50 false)
                                     (matrix2 (-1) 0 0 (-1))) []
                    = Ok (mkController 3 2 10 50 0.05 100 0.98
                            (100 * (1 - 0.98)) (matrix2 (-1) 0 0 (-1))
                            [50; 50; 1; 20] [50; 50; 1; 20] false false
                            (0.1 * 2) 0.5 0.6 0.8 2 2 (15, 5, 0)
                            [(8, 5, 1); (18, -5, 1.5)] 1.2 0%nat,
                          [repeat vzero 10])) by reflexivity.
    match type of Hinit with
    | _ = Ok (?s, ?hp) =>
        assert (Hwf : well_configured s)
          by (unfold well_configured; simpl; repeat split; try lia; lra);
        destruct (calc_control_input_spec s Hwf (draw_step (0, 0) (0, 0))
                    (0, 0, 0) hp eq_refl)
          as (_ & _ & _ & _ & _ & out & h'' & _ & _ & _ & _ & _ & _ & Hcall & _)
    end.
    exists out, h''. split; [exact Hinit | exact Hcall].
Qed.

(** ** Independence from the obstacles *)

(** C10: a call does not depend on the obstacle set or on the safety
    margin: with the same noise draw, observed state and heap, the
    solvers that differ only in these two fields return the same action,
    sequence and trajectories (or raise the same exception) and leave the
    same heap. *)
Theorem C10_obstacles_do_not_matter (self : MPPIControllerForDifferentialDrive)
        (obstacles : list Vec3) (margin : R)
        (draw : nat -> nat -> Vec2) (x0 : Vec3) (h : heap) :
  calc_control_input (with_obstacles self obstacles margin) draw x0 h =
  calc_control_input self draw x0 h /\
  (forall x, _c (with_obstacles self obstacles margin) x = _c self x) /\
  (forall x, _phi (with_obstacles self obstacles margin) x = _phi self x) /\
  (forall S, _compute_weights (with_obstacles self obstacles margin) S =
             _compute_weights self S) /\
  (forall u, smoothed_perturbation (with_obstacles self obstacles margin)
                                   draw x0 u =
             smoothed_perturbation self draw x0 u).
Proof. repeat split. Qed.

(** * Further properties of the code *)

(** ** Saturation and kinematics *)

Lemma np_clip_fixes (x m : R) : - m <= x <= m -> np_clip x (- m) m = x.
Proof.
  intros [Hlo Hhi]. unfold np_clip.
  rewrite Rmax_left by exact Hlo. now rewrite Rmin_left.
Qed.

Lemma np_clip_sqr (x m : R) :
  0 <= m -> np_clip x (- m) m * np_clip x (- m) m <= m * m.
Proof.
  intros Hm. destruct (np_clip_bounds x m Hm) as [Hlo Hhi].
  set (c := np_clip x (- m) m) in *.
  destruct (Rle_dec 0 c).
  - apply Rmult_le_compat; lra.
  - replace (c * c) with ((- c) * (- c)) by ring.
    apply Rmult_le_compat; lra.
Qed.

(** X1: with non-negative limits, saturating twice is saturating once,
    and a control already within the limits is left as it is. *)
Theorem X1_g_idempotent (self : MPPIControllerForDifferentialDrive)
        (v : Vec2) :
  0 <= max_linear_vel self ->
  0 <= max_angular_vel self ->
  _g self (_g self v) = _g self v /\
  (within_limits self v -> _g self v = v).
Proof.
  intros Hl Ha. split.
  - unfold _g. cbn [fst snd].
    apply f_equal2; apply np_clip_fixes, np_clip_bounds; assumption.
  - intros [Hv Hw]. unfold _g. destruct v as [v0 v1]. cbn [fst snd] in *.
    apply f_equal2; apply np_clip_fixes; assumption.
Qed.

Lemma X1_g_idempotent_witness :
  _g (main_controller 10 50 false) (_g (main_controller 10 50 false) (5, -7))
  = _g (main_controller 10 50 false) (5, -7) /\
  (within_limits (main_controller 10 50 false) (5, -7) ->
   _g (main_controller 10 50 false) (5, -7) = (5, -7)).
Proof.
  apply (X1_g_idempotent (main_controller 10 50 false) (5, -7)); simpl; lra.
Defined.

(** One step of the kinematics moves the position by [|v| dt] along the
    heading and turns the heading by [w dt]. *)
Lemma F_step (self : MPPIControllerForDifferentialDrive)
      (x y yaw v w : R) :
  exists x' y' yaw',
    _F self (x, y, yaw) (v, w) = (x', y', yaw') /\
    (x' - x) * (x' - x) + (y' - y) * (y' - y)
    = (v * delta_t self) * (v * delta_t self) /\
    yaw' = yaw + w * delta_t self.
Proof.
  eexists _, _, _. split; [reflexivity|]. split; [|reflexivity].
  pose proof (cos_sin_unit yaw) as Hcs.
  replace ((x + v * cos yaw * delta_t self - x)
           * (x + v * cos yaw * delta_t self - x)
           + (y + v * sin yaw * delta_t self - y)
             * (y + v * sin yaw * delta_t self - y))
    with ((v * delta_t self) * (v * delta_t self)
          * (cos yaw * cos yaw + sin yaw * sin yaw)) by ring.
  rewrite Hcs. ring.
Qed.

(** X2: a rollout step under a saturated control moves the position by
    at most [max_linear_vel * |delta_t|] and turns the heading by at most
    [max_angular_vel * |delta_t|]. *)
Theorem X2_step_bounded (self : MPPIControllerForDifferentialDrive)
        (x y yaw : R) (u : Vec2) :
  0 <= max_linear_vel self ->
  0 <= max_angular_vel self ->
  exists x' y' yaw',
    _F self (x, y, yaw) (_g self u) = (x', y', yaw') /\
    (x' - x) * (x' - x) + (y' - y) * (y' - y)
    <= (max_linear_vel self * delta_t self)
       * (max_linear_vel self * delta_t self) /\
    Rabs (yaw' - yaw) <= max_angular_vel self * Rabs (delta_t self).
Proof.
  intros Hl Ha. unfold _g.
  destruct (F_step self x y yaw
              (np_clip (fst u) (- max_linear_vel self) (max_linear_vel self))
              (np_clip (snd u) (- max_angular_vel self) (max_angular_vel self)))
    as (x' & y' & yaw' & HF & Hpos & Hyaw).
  exists x', y', yaw'. split; [exact HF|]. split.
  - rewrite Hpos.
    pose proof (np_clip_sqr (fst u) (max_linear_vel self) Hl) as Hsq.
    set (c := np_clip (fst u) (- max_linear_vel self) (max_linear_vel self)) in *.
    replace (c * delta_t self * (c * delta_t self))
      with ((c * c) * (delta_t self * delta_t self)) by ring.
    replace (max_linear_vel self * delta_t self
             * (max_linear_vel self * delta_t self))
      with ((max_linear_vel self * max_linear_vel self)
            * (delta_t self * delta_t self)) by ring.
    apply Rmult_le_compat_r; [|exact Hsq].
    apply Rle_0_sqr.
  - rewrite Hyaw.
    replace (yaw + np_clip (snd u) (- max_angular_vel self)
                           (max_angular_vel self) * delta_t self - yaw)
      with (np_clip (snd u) (- max_angular_vel self) (max_angular_vel self)
            * delta_t self) by ring.
    rewrite Rabs_mult.
    apply Rmult_le_compat_r; [apply Rabs_pos|].
    destruct (np_clip_bounds (snd u) (max_angular_vel self) Ha).
    apply Rabs_le. lra.
Qed.

Lemma X2_step_bounded_witness :
  exists x' y' yaw',
    _F (main_controller 10 50 false) (0, 0, 0)
       (_g (main_controller 10 50 false) (5, -7)) = (x', y', yaw') /\
    (x' - 0) * (x' - 0) + (y' - 0) * (y' - 0)
    <= (max_linear_vel (main_controller 10 50 false)
        * delta_t (main_controller 10 50 false))
       * (max_linear_vel (main_controller 10 50 false)
          * delta_t (main_controller 10 50 false)) /\
    Rabs (yaw' - 0)
    <= max_angular_vel (main_controller 10 50 false)
       * Rabs (delta_t (main_controller 10 50 false)).
Proof.
  apply (X2_step_bounded (main_controller 10 50 false) 0 0 0 (5, -7));
    simpl; lra.
Defined.

(** X3: the plant integrates with the kinematics of the solver: when the
    limits agree and the plant's step is the solver's [delta_t], [update]
    leads to the state [_F] gives from the saturated control; the limits
    and the default step of the plant are kept. *)
Theorem X3_plant_update_is_F_of_g (self : MPPIControllerForDifferentialDrive)
        (robot : DifferentialDriveRobot.t) (u : Vec2) (dt : R) :
  DifferentialDriveRobot.max_linear_vel robot = max_linear_vel self ->
  DifferentialDriveRobot.max_angular_vel robot = max_angular_vel self ->
  (if Req_dec_T dt 0 then DifferentialDriveRobot.delta_t robot else dt)
  = delta_t self ->
  DifferentialDriveRobot.state (DifferentialDriveRobot.update robot u dt)
  = _F self (DifferentialDriveRobot.state robot) (_g self u) /\
  DifferentialDriveRobot.max_linear_vel (DifferentialDriveRobot.update robot u dt)
  = DifferentialDriveRobot.max_linear_vel robot /\
  DifferentialDriveRobot.max_angular_vel (DifferentialDriveRobot.update robot u dt)
  = DifferentialDriveRobot.max_angular_vel robot /\
  DifferentialDriveRobot.delta_t (DifferentialDriveRobot.update robot u dt)
  = DifferentialDriveRobot.delta_t robot.
Proof.
  intros Hl Ha Hdt. unfold DifferentialDriveRobot.update, _F, _g.
  destruct (DifferentialDriveRobot.state robot) as [[x y] yaw].
  cbn [DifferentialDriveRobot.state DifferentialDriveRobot.max_linear_vel
       DifferentialDriveRobot.max_angular_vel DifferentialDriveRobot.delta_t
       fst snd].
  rewrite Hl, Ha, Hdt. repeat split.
Qed.

Lemma X3_plant_update_witness :
  DifferentialDriveRobot.state
    (DifferentialDriveRobot.update
       (DifferentialDriveRobot.mkRobot 2 2 0.05 (1, 2, 3)) (5, -7) (0.1 * 2))
  = _F (main_controller 10 50 false) (1, 2, 3)
       (_g (main_controller 10 50 false) (5, -7)).
Proof.
  apply (X3_plant_update_is_F_of_g
           (main_controller 10 50 false)
           (DifferentialDriveRobot.mkRobot 2 2 0.05 (1, 2, 3)) (5, -7) (0.1 * 2)).
  - reflexivity.
  - reflexivity.
  - destruct (Req_dec_T (0.1 * 2) 0) as [H|_]; [lra | reflexivity].
Defined.

(** ** Stage and terminal cost *)

Lemma Int_part_plus_IZR (r : R) (n : Z) :
  Int_part (r + IZR n) = (Int_part r + n)%Z.
Proof.
  symmetry. apply Int_part_spec. rewrite plus_IZR.
  destruct (base_Int_part r) as [Hlo Hhi]. split; lra.
Qed.

Lemma py_mod_periodic (x m : R) (n : Z) :
  m <> 0 -> py_mod (x + m * IZR n) m = py_mod x m.
Proof.
  intros Hm. unfold py_mod.
  replace ((x + m * IZR n) / m) with (x / m + IZR n) by (field; exact Hm).
  rewrite Int_part_plus_IZR, plus_IZR. ring.
Qed.

Lemma yaw_error_periodic (yaw gyaw : R) (n : Z) :
  yaw_error (yaw + 2 * PI * IZR n) gyaw = yaw_error yaw gyaw.
Proof.
  unfold yaw_error. pose proof PI_RGT_0 as Hpi.
  replace (yaw + 2 * PI * IZR n - gyaw + PI)
    with (yaw - gyaw + PI + 2 * PI * IZR n) by ring.
  rewrite py_mod_periodic by lra. reflexivity.
Qed.

Lemma yaw_error_same (yaw : R) : yaw_error yaw yaw = 0.
Proof.
  unfold yaw_error, py_mod. pose proof PI_RGT_0 as Hpi.
  replace ((yaw - yaw + PI) / (2 * PI)) with (1 / 2) by (field; lra).
  assert (H0 : Int_part (1 / 2) = 0%Z).
  { symmetry. apply Int_part_spec. simpl. lra. }
  rewrite H0. simpl. lra.
Qed.

(** X4: the costs see the heading modulo full turns: adding any number
    of full turns to the heading of a state changes neither the stage
    cost nor the terminal cost. *)
Theorem X4_cost_heading_periodic (self : MPPIControllerForDifferentialDrive)
        (x y yaw : R) (n : Z) :
  _c self (x, y, yaw + 2 * PI * IZR n) = _c self (x, y, yaw) /\
  _phi self (x, y, yaw + 2 * PI * IZR n) = _phi self (x, y, yaw).
Proof.
  unfold _c, _phi. destruct (goal self) as [[gx gy] gyaw].
  rewrite yaw_error_periodic. split; reflexivity.
Qed.

(** X5: with at least three cost weights, the first three non-negative,
    the stage and terminal costs are computed and non-negative, and both
    are zero at the goal pose. *)
Theorem X5_cost_nonneg_zero_at_goal
        (self : MPPIControllerForDifferentialDrive) (x_t : Vec3) :
  (3 <= length (stage_cost_weight self))%nat ->
  (3 <= length (terminal_cost_weight self))%nat ->
  (forall i, (i < 3)%nat -> 0 <= nth i (stage_cost_weight self) 0) ->
  (forall i, (i < 3)%nat -> 0 <= nth i (terminal_cost_weight self) 0) ->
  (exists c, _c self x_t = Ok c /\ 0 <= c) /\
  (exists p, _phi self x_t = Ok p /\ 0 <= p) /\
  _c self (goal self) = Ok 0 /\
  _phi self (goal self) = Ok 0.
Proof.
  intros Hs Ht Hsw Htw.
  assert (Hsq : forall a b c w0 w1 w2,
             0 <= w0 -> 0 <= w1 -> 0 <= w2 ->
             0 <= w0 * a ^ 2 + w1 * b ^ 2 + w2 * c ^ 2).
  { intros a b c w0 w1 w2 H0 H1 H2.
    pose proof (pow2_ge_0 a). pose proof (pow2_ge_0 b).
    pose proof (pow2_ge_0 c).
    assert (0 <= w0 * a ^ 2) by (apply Rmult_le_pos; assumption).
    assert (0 <= w1 * b ^ 2) by (apply Rmult_le_pos; assumption).
    assert (0 <= w2 * c ^ 2) by (apply Rmult_le_pos; assumption).
    lra. }
  destruct x_t as [[x y] yaw].
  unfold _c, _phi. destruct (goal self) as [[gx gy] gyaw].
  rewrite !(getitem_ok _ _ 0) by lia. cbn [bind].
  rewrite yaw_error_same.
  split; [eexists; split; [reflexivity|]; apply Hsq; apply Hsw; lia|].
  split; [eexists; split; [reflexivity|]; apply Hsq; apply Htw; lia|].
  split; f_equal; ring.
Qed.

Lemma X5_cost_witness :
  (exists c, _c (main_controller 10 50 false) (1, 2, 3) = Ok c /\ 0 <= c) /\
  (exists p, _phi (main_controller 10 50 false) (1, 2, 3) = Ok p /\ 0 <= p) /\
  _c (main_controller 10 50 false) (goal (main_controller 10 50 false)) = Ok 0 /\
  _phi (main_controller 10 50 false) (goal (main_controller 10 50 false)) = Ok 0.
Proof.
  apply (X5_cost_nonneg_zero_at_goal (main_controller 10 50 false) (1, 2, 3)).
  - simpl. lia.
  - simpl. lia.
  - intros [|[|[|i]]] Hi; simpl; try lra; lia.
  - intros [|[|[|i]]] Hi; simpl; try lra; lia.
Defined.

(** X6: only the first three cost weights are read. Two solvers with the
    same goal whose stage weights agree on their first three entries
    have the same stage cost (likewise for the terminal cost), and a
    weight vector with fewer than three entries makes the cost raise
    [IndexError]. *)
Theorem X6_cost_reads_three_weights
        (self other : MPPIControllerForDifferentialDrive) (x_t : Vec3) :
  goal self = goal other ->
  (firstn 3 (stage_cost_weight self) = firstn 3 (stage_cost_weight other) ->
   _c self x_t = _c other x_t) /\
  (firstn 3 (terminal_cost_weight self)
   = firstn 3 (terminal_cost_weight other) ->
   _phi self x_t = _phi other x_t) /\
  ((length (stage_cost_weight self) < 3)%nat ->
   _c self x_t = Raise IndexError) /\
  ((length (terminal_cost_weight self) < 3)%nat ->
   _phi self x_t = Raise IndexError).
Proof.
  intros Hgoal.
  assert (Hget : forall (l l' : list R) i,
             (i < 3)%nat -> firstn 3 l = firstn 3 l' ->
             getitem l i = getitem l' i).
  { intros l l' i Hi Hf. unfold getitem.
    assert (E : forall l0 : list R,
               nth_error l0 i = nth_error (firstn 3 l0) i).
    { intros l0. rewrite nth_error_firstn.
      destruct (Nat.ltb_spec i 3); [reflexivity | lia]. }
    rewrite (E l), (E l'), Hf. reflexivity. }
  assert (Hshort : forall (l : list R) (k : R -> R -> R -> result R),
             (length l < 3)%nat ->
             (w0 <- getitem l 0 ;; w1 <- getitem l 1 ;; w2 <- getitem l 2 ;;
              k w0 w1 w2) = Raise IndexError).
  { intros l k Hl.
    destruct l as [|a [|b [|c l]]]; try reflexivity. simpl in Hl. lia. }
  destruct x_t as [[x y] yaw].
  unfold _c, _phi. rewrite <- Hgoal. destruct (goal self) as [[gx gy] gyaw].
  repeat split.
  - intros Hf.
    rewrite (Hget _ _ 0%nat ltac:(lia) Hf), (Hget _ _ 1%nat ltac:(lia) Hf),
      (Hget _ _ 2%nat ltac:(lia) Hf).
    reflexivity.
  - intros Hf.
    rewrite (Hget _ _ 0%nat ltac:(lia) Hf), (Hget _ _ 1%nat ltac:(lia) Hf),
      (Hget _ _ 2%nat ltac:(lia) Hf).
    reflexivity.
  - intros Hl. now apply Hshort.
  - intros Hl. now apply Hshort.
Qed.


Lemma X6_cost_reads_three_weights_witness :
  _c (main_controller 10 50 false) (1, 2, 3)
  = _c (mkController 3 2 10 50 0.05 100 0.98 (100 * (1 - 0.98))
                     (matrix2 0.075 0 0 2) [50; 50; 1] [50; 50; 1]
                     false false (0.1 * 2) 0.5 0.6 0.8 2 2 (15, 5, 0)
                     [] 1.2 0%nat) (1, 2, 3).
Proof.
  apply (proj1 (X6_cost_reads_three_weights
                  (main_controller 10 50 false)
                  (mkController 3 2 10 50 0.05 100 0.98 (100 * (1 - 0.98))
                                (matrix2 0.075 0 0 2) [50; 50; 1] [50; 50; 1]
                                false false (0.1 * 2) 0.5 0.6 0.8 2 2
                                (15, 5, 0) [] 1.2 0%nat)
                  (1, 2, 3) eq_refl)).
  reflexivity.
Defined.

(** ** Importance weights, continued *)

Lemma for_each_app {A St : Type} (body : St -> A -> result St)
      (l1 l2 : list A) (st : St) :
  for_each body st (l1 ++ l2) =
  (st' <- for_each body st l1 ;; for_each body st' l2).
Proof.
  revert st. induction l1 as [|a l1 IH]; intros st; [reflexivity|].
  simpl. destruct (body st a) as [st1|e]; [apply IH | reflexivity].
Qed.

(** A loop over [range(K)] that reads [S[k]] raises [IndexError] when
    [S] has fewer than [K] entries. *)
Lemma for_each_short {St : Type} (S : list R) (n : nat)
      (body : St -> nat -> result St) (g : St -> R -> St) (st : St) :
  (forall st k x, nth_error S k = Some x -> body st k = Ok (g st x)) ->
  (forall st k, nth_error S k = None -> body st k = Raise IndexError) ->
  (length S < n)%nat ->
  for_each body st (seq 0 n) = Raise IndexError.
Proof.
  intros Hok Hbad Hlen.
  replace n with (length S + (n - length S))%nat by lia.
  rewrite seq_app, for_each_app, (for_each_all S body g st Hok).
  cbn [bind]. destruct (n - length S)%nat as [|m] eqn:Hm; [lia|].
  cbn [seq for_each]. rewrite Hbad; [reflexivity|].
  apply nth_error_None. simpl. lia.
Qed.

(** X7: the failures of [_compute_weights]: a negative sample count or
    an empty cost vector raises [ValueError]; on a non-empty cost vector
    with at least one sample, a zero [param_lambda] raises
    [ZeroDivisionError]; with a non-zero [param_lambda], fewer costs than
    samples raise [IndexError]. *)
Theorem X7_compute_weights_errors
        (self : MPPIControllerForDifferentialDrive) (S : list R) :
  ((K self < 0)%Z -> _compute_weights self S = Raise ValueError) /\
  (S = [] -> _compute_weights self S = Raise ValueError) /\
  (S <> [] -> (1 <= K self)%Z -> param_lambda self = 0 ->
   _compute_weights self S = Raise ZeroDivisionError) /\
  (S <> [] -> param_lambda self <> 0 ->
   (Z.of_nat (length S) < K self)%Z ->
   _compute_weights self S = Raise IndexError).
Proof.
  unfold _compute_weights, np_zeros1, range.
  repeat split.
  - intros HK. destruct (Z.ltb_spec (K self) 0); [reflexivity | lia].
  - intros ->. destruct (Z.ltb_spec (K self) 0); reflexivity.
  - intros Hne HK Hlam.
    destruct (Z.ltb_spec (K self) 0); [lia|].
    destruct S as [|s0 S']; [congruence|]. cbn [bind np_min].
    destruct (Z.to_nat (K self)) as [|n] eqn:Hn; [lia|].
    cbn [seq for_each].
    destruct (Req_dec_T (param_lambda self) 0); [reflexivity | contradiction].
  - intros Hne Hlam Hlen.
    destruct (Z.ltb_spec (K self) 0); [lia|].
    destruct S as [|s0 S']; [congruence|]. cbn [bind np_min].
    set (S := s0 :: S') in *. set (rho := fold_left Rmin S' s0).
    rewrite (for_each_short S (Z.to_nat (K self)) _
               (fun acc s' => acc + exp (- 1 / param_lambda self * (s' - rho)))).
    + reflexivity.
    + intros st k x Hk.
      destruct (Req_dec_T (param_lambda self) 0); [contradiction|].
      unfold getitem. rewrite Hk. reflexivity.
    + intros st k Hk.
      destruct (Req_dec_T (param_lambda self) 0); [contradiction|].
      unfold getitem. rewrite Hk. reflexivity.
    + unfold S in *. lia.
Qed.

Lemma X7_compute_weights_errors_witness :
  _compute_weights (main_controller 10 (-1) false) [1] = Raise ValueError /\
  _compute_weights (main_controller 10 2 false) [] = Raise ValueError /\
  _compute_weights (main_controller 10 2 false) [1] = Raise IndexError.
Proof.
  split; [|split].
  - apply (proj1 (X7_compute_weights_errors
                    (main_controller 10 (-1) false) [1])).
    simpl. lia.
  - now apply (proj1 (proj2 (X7_compute_weights_errors
                               (main_controller 10 2 false) []))).
  - apply (proj2 (proj2 (proj2 (X7_compute_weights_errors
                                  (main_controller 10 2 false) [1])))).
    + discriminate.
    + simpl. lra.
    + simpl. lia.
Defined.

Lemma fold_left_Rmin_repeat (s : R) (n : nat) :
  fold_left Rmin (repeat s n) s = s.
Proof.
  induction n as [|n IH]; [reflexivity|].
  simpl. unfold Rmin at 2. destruct (Rle_dec s s); exact IH.
Qed.

Lemma fold_left_sum_repeat (e : R -> R) (s a : R) (n : nat) :
  fold_left (fun acc s' => acc + e s') (repeat s n) a = a + INR n * e s.
Proof.
  revert a. induction n as [|n IH]; intros a.
  - simpl. ring.
  - cbn [repeat fold_left]. rewrite IH, S_INR. ring.
Qed.

(** X8: when all the sample costs are equal the weights are uniform:
    each of the [K] weights is [1 / K]. *)
Theorem X8_weights_uniform (self : MPPIControllerForDifferentialDrive)
        (s : R) (n : nat) :
  (1 <= n)%nat ->
  K self = Z.of_nat n ->
  param_lambda self <> 0 ->
  _compute_weights self (repeat s n) = Ok (repeat (1 / INR n) n).
Proof.
  intros Hn HK Hlam.
  destruct (compute_weights_closed self (repeat s n)) as (rho & Hrho & Hw).
  { destruct n; [lia | discriminate]. }
  { now rewrite repeat_length. }
  { exact Hlam. }
  assert (Hrho' : rho = s).
  { destruct n as [|m]; [lia|]. simpl in Hrho. injection Hrho as <-.
    apply fold_left_Rmin_repeat. }
  subst rho. rewrite Hw, map_repeat. f_equal. f_equal.
  rewrite (fold_left_sum_repeat
             (fun s' => exp (- 1 / param_lambda self * (s' - s))) s 0 n).
  replace (s - s) with 0 by ring. rewrite Rmult_0_r, exp_0.
  assert (0 < INR n) by (apply lt_0_INR; lia).
  field. lra.
Qed.

Lemma X8_weights_uniform_witness :
  _compute_weights (main_controller 10 4 false) (repeat 7 4)
  = Ok (repeat (1 / INR 4) 4).
Proof.
  apply (X8_weights_uniform (main_controller 10 4 false) 7 4).
  - lia.
  - reflexivity.
  - simpl. lra.
Defined.

(** X9: for a positive [param_lambda] the weights are ordered against
    the costs: a sample that costs no more than another weighs no less. *)
Theorem X9_weights_antitone (self : MPPIControllerForDifferentialDrive)
        (S : list R) :
  Z.of_nat (length S) = K self ->
  0 < param_lambda self ->
  S <> [] ->
  exists w,
    _compute_weights self S = Ok w /\
    forall i j,
      (i < length S)%nat -> (j < length S)%nat ->
      nth i S 0 <= nth j S 0 -> nth j w 0 <= nth i w 0.
Proof.
  intros HK Hlam Hne.
  destruct (compute_weights_closed self S Hne HK) as (rho & _ & Hw); [lra|].
  eexists. split; [exact Hw|].
  intros i j Hi Hj Hle.
  set (f := fun s => _ * exp (- 1 / param_lambda self * (s - rho))).
  rewrite (nth_indep _ 0 (f 0)) by (now rewrite length_map).
  rewrite (nth_indep (map f S) 0 (f 0)) by (now rewrite length_map).
  rewrite !map_nth. unfold f.
  set (eta := fold_left _ S 0).
  assert (Heta : 0 < eta).
  { apply (fold_left_sum_pos
             (fun s => exp (- 1 / param_lambda self * (s - rho))));
      [intro; apply exp_pos | lra | exact Hne]. }
  apply Rmult_le_compat_l.
  - unfold Rdiv. rewrite Rmult_1_l. left. now apply Rinv_0_lt_compat.
  - destruct Hle as [Hlt | Heq].
    + left. apply exp_increasing.
      assert (Hc : - 1 / param_lambda self < 0).
      { unfold Rdiv. apply Rmult_neg_pos; [lra|].
        now apply Rinv_0_lt_compat. }
      apply Rmult_lt_gt_compat_neg_l; [exact Hc | lra].
    + rewrite Heq. right. reflexivity.
Qed.

Lemma X9_weights_antitone_witness :
  exists w,
    _compute_weights (main_controller 10 2 false) [3; 1] = Ok w /\
    forall i j,
      (i < 2)%nat -> (j < 2)%nat ->
      nth i [3; 1] 0 <= nth j [3; 1] 0 -> nth j w 0 <= nth i w 0.
Proof.
  apply (X9_weights_antitone (main_controller 10 2 false) [3; 1]).
  - reflexivity.
  - simpl. lra.
  - discriminate.
Defined.

Lemma fold_left_Rmin_shift (c : R) (l : list R) (a : R) :
  fold_left Rmin (map (fun s => s + c) l) (a + c) = fold_left Rmin l a + c.
Proof.
  revert a. induction l as [|x l IH]; intros a; [reflexivity|].
  simpl. rewrite <- IH. f_equal.
  unfold Rmin. destruct (Rle_dec (a + c) (x + c)), (Rle_dec a x);
    try reflexivity; lra.
Qed.

Lemma fold_left_map {A B C : Type} (f : C -> B -> C) (g : A -> B)
      (l : list A) (a : C) :
  fold_left f (map g l) a = fold_left (fun acc x => f acc (g x)) l a.
Proof.
  revert a. induction l as [|x l IH]; intros a; [reflexivity | apply IH].
Qed.

Lemma fold_left_ext_R {A : Type} (f g : R -> A -> R) (l : list A) (a : R) :
  (forall acc x, f acc x = g acc x) -> fold_left f l a = fold_left g l a.
Proof.
  intros H. revert a. induction l as [|x l IH]; intros a; [reflexivity|].
  simpl. rewrite H. apply IH.
Qed.

(** X10: the weights depend on the cost differences only: adding one
    constant to every sample cost leaves the weights unchanged. *)
Theorem X10_weights_shift_invariant
        (self : MPPIControllerForDifferentialDrive) (S : list R) (c : R) :
  S <> [] ->
  Z.of_nat (length S) = K self ->
  param_lambda self <> 0 ->
  _compute_weights self (map (fun s => s + c) S) = _compute_weights self S.
Proof.
  intros Hne HK Hlam.
  destruct (compute_weights_closed self S Hne HK Hlam) as (rho & Hrho & Hw).
  destruct (compute_weights_closed self (map (fun s => s + c) S))
    as (rho' & Hrho' & Hw').
  { destruct S; [congruence | discriminate]. }
  { now rewrite length_map. }
  { exact Hlam. }
  assert (Hr : rho' = rho + c).
  { destruct S as [|s0 S']; [congruence|].
    simpl in Hrho, Hrho'. injection Hrho as <-. injection Hrho' as <-.
    apply fold_left_Rmin_shift. }
  subst rho'. rewrite Hw, Hw'. f_equal.
  rewrite map_map, fold_left_map.
  assert (Hterm : forall s, s + c - (rho + c) = s - rho) by (intros; ring).
  rewrite (fold_left_ext_R _
             (fun acc s' => acc + exp (- 1 / param_lambda self * (s' - rho))))
    by (intros; now rewrite Hterm).
  apply map_ext. intros s. now rewrite Hterm.
Qed.

Lemma X10_weights_shift_invariant_witness :
  _compute_weights (main_controller 10 2 false) (map (fun s => s + 5) [3; 1])
  = _compute_weights (main_controller 10 2 false) [3; 1].
Proof.
  apply (X10_weights_shift_invariant (main_controller 10 2 false) [3; 1] 5).
  - discriminate.
  - reflexivity.
  - simpl. lra.
Defined.

(** ** Moving average filter, continued *)

(** X11: a sequence shorter than the window cannot be smoothed: the
    filter raises [ValueError] (the calls of the solver use a window of
    10, so a horizon below 10 makes every call fail). *)
Theorem X11_filter_short_input (xx : list Vec2) (window_size : nat) :
  (length xx < window_size)%nat ->
  _moving_average_filter xx window_size = Raise ValueError.
Proof.
  intros Hlen. unfold _moving_average_filter.
  rewrite filter_column_short by (now rewrite length_map). reflexivity.
Qed.

Lemma X11_filter_short_input_witness :
  _moving_average_filter [(1, 2); (3, 4)] 10 = Raise ValueError.
Proof.
  apply (X11_filter_short_input [(1, 2); (3, 4)] 10). simpl. lia.
Defined.

Ltac bound_entries Hb col :=
  repeat match goal with
         | |- context [nth ?j col 0] =>
             let H := fresh "Hj" in
             pose proof (Hb j ltac:(lia)) as H;
             revert H; generalize (nth j col 0); intros ? ?
         end.

(** On a column of at least 10 entries, every entry of the output lies
    between two bounds of the input. *)
Lemma filter_column_bounded (col : list R) (lo hi : R) :
  (10 <= length col)%nat ->
  (forall j, (j < length col)%nat -> lo <= nth j col 0 <= hi) ->
  exists out,
    filter_column col 10 = Ok out /\
    length out = length col /\
    forall k, (k < length col)%nat -> lo <= nth k out 0 <= hi.
Proof.
  intros Hn Hb. unfold filter_column.
  rewrite convolve_same_long;
    [| discriminate | rewrite !repeat_length; exact Hn].
  rewrite !repeat_length.
  change ((10 / 2)%nat) with 5%nat. change ((10 - 1)%nat) with 9%nat.
  cbn [bind]. rewrite length_map, length_seq, Nat.eqb_refl.
  change (((10 + 1) / 2)%nat) with 5%nat.
  change ((10 mod 2)%nat) with 0%nat.
  set (n := length col) in *.
  set (conv := map _ (seq 0 n)).
  assert (Hlen : length conv = n)
    by (unfold conv; now rewrite length_map, length_seq).
  cbn [seq for_each Nat.sub Nat.add bind].
  unfold neg_index.
  repeat (rewrite scale_at_ok by (rewrite ?length_set_nth, ?Hlen; lia);
          rewrite ?nth_set_nth by (rewrite ?length_set_nth, ?Hlen; lia);
          decide_tests;
          cbn [bind]; rewrite ?length_set_nth, ?Hlen; decide_tests;
          cbn [bind]).
  eexists. split; [reflexivity|].
  split; [rewrite !length_set_nth; exact Hlen|].
  intros k Hk.
  rewrite !nth_set_nth by (rewrite ?length_set_nth, ?Hlen; lia).
  assert (Hcase : (k = 0 \/ k = 1 \/ k = 2 \/ k = 3 \/ k = 4 \/
                   (5 <= k /\ k + 5 <= n) \/
                   k = n - 4 \/ k = n - 3 \/ k = n - 2 \/ k = n - 1)%nat) by lia.
  repeat (destruct Hcase as [Hcase | Hcase]);
    try subst k; decide_tests;
    unfold conv; rewrite nth_map_seq by lia;
    cbn [seq fold_left nth repeat Nat.sub];
    decide_tests; cbn [andb];
    rewrite !INR_IZR_INZ; cbn [Z.of_nat Pos.of_succ_nat Pos.succ];
    idtac.
  all: bound_entries Hb col.
  all: clear Hb conv Hlen.
  all: lra.
Qed.

Lemma nth_map_fst (xx : list Vec2) (j : nat) :
  nth j (map fst xx) 0 = fst (nth j xx vzero).
Proof. apply (map_nth fst xx vzero j). Qed.

Lemma nth_map_snd (xx : list Vec2) (j : nat) :
  nth j (map snd xx) 0 = snd (nth j xx vzero).
Proof. apply (map_nth snd xx vzero j). Qed.

Lemma nth_combine_R (a b : list R) (k : nat) :
  length a = length b ->
  nth k (combine a b) vzero = (nth k a 0, nth k b 0).
Proof. intros H. apply combine_nth. exact H. Qed.

(** The filter keeps both components of every entry between two bounds
    of the input components. *)
Lemma moving_average_bounded (xx : list Vec2) (lo hi : R) :
  (10 <= length xx)%nat ->
  (forall j, (j < length xx)%nat -> components_within lo hi (nth j xx vzero)) ->
  exists out,
    _moving_average_filter xx 10 = Ok out /\
    length out = length xx /\
    forall k, (k < length xx)%nat -> components_within lo hi (nth k out vzero).
Proof.
  intros Hn Hb. unfold _moving_average_filter.
  destruct (filter_column_bounded (map fst xx) lo hi) as (c0 & H0 & L0 & B0).
  { now rewrite length_map. }
  { intros j Hj. rewrite length_map in Hj. rewrite nth_map_fst.
    apply (Hb j Hj). }
  destruct (filter_column_bounded (map snd xx) lo hi) as (c1 & H1 & L1 & B1).
  { now rewrite length_map. }
  { intros j Hj. rewrite length_map in Hj. rewrite nth_map_snd.
    apply (Hb j Hj). }
  rewrite length_map in L0, L1, B0, B1.
  rewrite H0, H1. cbn [bind]. exists (combine c0 c1).
  split; [reflexivity|]. split.
  - transitivity (Nat.min (length c0) (length c1)); [apply length_combine|].
    rewrite L0, L1. apply Nat.min_id.
  - intros k Hk. rewrite nth_combine_R by congruence.
    split; cbn [fst snd]; [apply B0 | apply B1]; exact Hk.
Qed.

(** X12: on a sequence of at least 10 entries the filter returns a
    sequence of the same length whose components stay between any two
    bounds of the input components: smoothing never leaves the range of
    its input. *)
Theorem X12_filter_stays_in_range (xx : list Vec2) (lo hi : R) :
  (10 <= length xx)%nat ->
  Forall (components_within lo hi) xx ->
  exists out,
    _moving_average_filter xx 10 = Ok out /\
    length out = length xx /\
    Forall (components_within lo hi) out.
Proof.
  intros Hn Hall.
  destruct (moving_average_bounded xx lo hi Hn) as (out & Hout & Hlen & Hb).
  { intros j Hj. rewrite Forall_forall in Hall. apply Hall, nth_In, Hj. }
  exists out. split; [exact Hout|]. split; [exact Hlen|].
  apply Forall_forall. intros x Hx.
  destruct (In_nth out x vzero Hx) as (k & Hk & <-).
  apply Hb. now rewrite <- Hlen.
Qed.

Lemma X12_filter_stays_in_range_witness :
  exists out,
    _moving_average_filter
      [(0, 1); (1, 0); (0, 1); (1, 0); (0, 1);
       (1, 0); (0, 1); (1, 0); (0, 1); (1, 0)] 10 = Ok out /\
    length out = 10%nat /\
    Forall (components_within 0 1) out.
Proof.
  apply (X12_filter_stays_in_range
           [(0, 1); (1, 0); (0, 1); (1, 0); (0, 1);
            (1, 0); (0, 1); (1, 0); (0, 1); (1, 0)] 0 1).
  - simpl. lia.
  - repeat (apply Forall_cons;
            [unfold components_within; cbn [fst snd]; lra|]).
    apply Forall_nil.
Defined.

(** ** Rollouts and the weighted perturbation *)

Lemma rollout_steps_inv (self : MPPIControllerForDifferentialDrive)
      (u : list Vec2) (epsilon : nat -> nat -> Vec2) (k : nat)
      (ts : list nat) :
  0 <= max_linear_vel self -> 0 <= max_angular_vel self ->
  forall x Sk vk x' Sk' vk',
    for_each (rollout_step self u epsilon k) (x, Sk, vk) ts
    = Ok (x', Sk', vk') ->
    Forall (within_limits self) vk ->
    Forall (within_limits self) vk' /\
    length vk' = (length vk + length ts)%nat.
Proof.
  intros Hl Ha. induction ts as [|t ts IH]; intros x Sk vk x' Sk' vk' Hrun Hvk.
  - simpl in Hrun. injection Hrun as <- <- <-. split; [exact Hvk | simpl; lia].
  - cbn [for_each] in Hrun. unfold rollout_step at 1 in Hrun.
    destruct (getitem u (t - 1)) as [ut|e]; [|discriminate]. cbn [bind] in Hrun.
    match type of Hrun with
    | context [_c self ?y] => destruct (_c self y) as [c|e]; [|discriminate]
    end.
    cbn [bind] in Hrun.
    destruct (np_linalg_inv (Sigma self)) as [M|e]; [|discriminate].
    cbn [bind] in Hrun.
    apply IH in Hrun.
    + destruct Hrun as [Hall Hlen]. split; [exact Hall|].
      rewrite Hlen, length_app. simpl. lia.
    + apply Forall_app. split; [exact Hvk|].
      constructor; [|constructor]. now apply _g_within_limits.
Qed.

Lemma rollouts_inv (self : MPPIControllerForDifferentialDrive)
      (u : list Vec2) (epsilon : nat -> nat -> Vec2) (x0 : Vec3)
      (ks : list nat) (P : list Vec2 -> Prop) :
  (forall k Sk vk, rollout self u epsilon x0 k = Ok (Sk, vk) -> P vk) ->
  forall costs v costs' v',
    for_each (fun Sv k =>
                '(Sk, vk) <- rollout self u epsilon x0 k ;;
                Ok (fst Sv ++ [Sk], snd Sv ++ [vk]))
             (costs, v) ks = Ok (costs', v') ->
    Forall P v ->
    Forall P v' /\
    length costs' = (length costs + length ks)%nat /\
    length v' = (length v + length ks)%nat.
Proof.
  intros HP. induction ks as [|k ks IH]; intros costs v costs' v' Hrun Hv.
  - simpl in Hrun. injection Hrun as <- <-. repeat split; [exact Hv | | ]; simpl; lia.
  - cbn [for_each] in Hrun.
    destruct (rollout self u epsilon x0 k) as [[Sk vk]|e] eqn:Hr; [|discriminate].
    cbn [bind fst snd] in Hrun. apply IH in Hrun.
    + destruct Hrun as (Hall & Hc & Hlen). split; [exact Hall|].
      rewrite Hc, Hlen, !length_app. simpl. lia.
    + apply Forall_app. split; [exact Hv|].
      constructor; [|constructor]. exact (HP k Sk vk Hr).
Qed.

(** X13: whenever the rollouts of a call complete, there is one cost and
    one row of perturbed controls per sample, every row has one control
    per horizon step, and every stored control is within the
    (non-negative) limits. *)
Theorem X13_rollout_controls_saturated
        (self : MPPIControllerForDifferentialDrive)
        (draw : nat -> nat -> Vec2) (x0 : Vec3) (u : list Vec2)
        (costs : list R) (v : list (list Vec2)) (w_epsilon : list Vec2) :
  0 <= max_linear_vel self ->
  0 <= max_angular_vel self ->
  smoothed_perturbation self draw x0 u = Ok (costs, v, w_epsilon) ->
  length costs = Z.to_nat (K self) /\
  length v = Z.to_nat (K self) /\
  Forall (fun vk => length vk = Z.to_nat (T self) /\
                    Forall (within_limits self) vk) v.
Proof.
  intros Hl Ha Hsp. unfold smoothed_perturbation in Hsp.
  destruct (np_zeros1 (K self)) as [?|e]; [|discriminate]. cbn [bind] in Hsp.
  destruct (_calc_epsilon _ _ _ _ draw) as [epsilon|e]; [|discriminate].
  cbn [bind] in Hsp.
  destruct (rollouts self u epsilon x0) as [[costs0 v0]|e] eqn:Hr;
    [|discriminate].
  cbn [bind] in Hsp.
  destruct (_compute_weights self costs0) as [w|e]; [|discriminate].
  cbn [bind] in Hsp.
  destruct (_moving_average_filter _ 10) as [out|e]; [|discriminate].
  cbn [bind] in Hsp. injection Hsp as <- <- <-.
  unfold rollouts in Hr.
  apply (rollouts_inv self u epsilon x0 (range (K self))
           (fun vk => length vk = Z.to_nat (T self) /\
                      Forall (within_limits self) vk)) in Hr.
  - destruct Hr as (Hall & Hc & Hv).
    unfold range in Hc, Hv. rewrite length_seq in Hc, Hv. simpl in Hc, Hv.
    auto.
  - intros k Sk vk Hk. unfold rollout in Hk.
    destruct (for_each (rollout_step self u epsilon k) _ _)
      as [[[x Sk0] vk0]|e] eqn:Hsteps; [|discriminate].
    cbn [bind] in Hk.
    destruct (_phi self x) as [p|e]; [|discriminate].
    cbn [bind] in Hk. injection Hk as <- <-.
    apply (rollout_steps_inv self u epsilon k _ Hl Ha) in Hsteps;
      [|constructor].
    destruct Hsteps as [Hall Hlen]. split; [|exact Hall].
    rewrite Hlen, length_seq. reflexivity.
  - constructor.
Qed.

(** The weights are non-negative and sum to 1. *)
Lemma weights_simplex (self : MPPIControllerForDifferentialDrive)
      (S w : list R) :
  S <> [] ->
  Z.of_nat (length S) = K self ->
  param_lambda self <> 0 ->
  _compute_weights self S = Ok w ->
  length w = length S /\ Forall (fun wk => 0 <= wk) w /\ sum_list w = 1.
Proof.
  intros Hne Hlen Hlam Hw0.
  destruct (compute_weights_closed self S Hne Hlen Hlam) as [rho [_ Hw]].
  rewrite Hw in Hw0. injection Hw0 as <-.
  set (e := fun s => exp (- 1 / param_lambda self * (s - rho))).
  assert (Heta : 0 < fold_left (fun acc s => acc + e s) S 0).
  { apply fold_left_sum_pos; [intro; apply exp_pos | lra | exact Hne]. }
  fold e. set (eta := fold_left (fun acc s => acc + e s) S 0) in *.
  split; [apply length_map|]. split.
  - apply Forall_map, Forall_forall. intros s _.
    apply Rmult_le_pos; [|left; apply exp_pos].
    unfold Rdiv. rewrite Rmult_1_l. left. now apply Rinv_0_lt_compat.
  - pose proof (fold_left_sum_scale (1 / eta) e S 0) as Hs.
    rewrite Rmult_0_r in Hs.
    change (fold_left Rplus (map (fun s => 1 / eta * e s) S) 0 = 1).
    rewrite Hs. fold eta. field. lra.
Qed.

Lemma fold_left_seq_nth {A : Type} (f : A -> R -> A) (w : list R) :
  forall l1 l2 a,
    w = l1 ++ l2 ->
    fold_left (fun acc k => f acc (nth k w 0)) (seq (length l1) (length l2)) a
    = fold_left f l2 a.
Proof.
  intros l1 l2. revert l1. induction l2 as [|x l2 IH]; intros l1 a Hw.
  - reflexivity.
  - cbn [length seq fold_left].
    replace (nth (length l1) w 0) with x
      by (rewrite Hw, app_nth2, Nat.sub_diag by lia; reflexivity).
    replace (Datatypes.S (length l1)) with (length (l1 ++ [x]))
      by (rewrite length_app; simpl; lia).
    apply IH. now rewrite <- app_assoc.
Qed.

(** A sum of values weighted by non-negative weights lies between the
    bounds of the values times the sum of the weights. *)
Lemma weighted_sum_bounds (wf x : nat -> R) (lo hi : R) :
  (forall k, 0 <= wf k) ->
  (forall k, lo <= x k <= hi) ->
  forall m s a b,
    lo * (fold_left (fun acc k => acc + wf k) (seq s m) b - b)
    <= fold_left (fun acc k => acc + wf k * x k) (seq s m) a - a
    <= hi * (fold_left (fun acc k => acc + wf k) (seq s m) b - b).
Proof.
  intros Hw Hx. induction m as [|m IH]; intros s a b.
  - simpl. lra.
  - cbn [seq fold_left].
    specialize (IH (Datatypes.S s) (a + wf s * x s) (b + wf s)).
    specialize (Hw s). specialize (Hx s).
    set (F := fold_left (fun acc k => acc + wf k) (seq (Datatypes.S s) m)
                        (b + wf s)) in *.
    set (G := fold_left (fun acc k => acc + wf k * x k)
                        (seq (Datatypes.S s) m) (a + wf s * x s)) in *.
    assert (wf s * lo <= wf s * x s) by (apply Rmult_le_compat_l; lra).
    assert (wf s * x s <= wf s * hi) by (apply Rmult_le_compat_l; lra).
    lra.
Qed.

Lemma fst_weighted_fold (w : list R) (draw : nat -> nat -> Vec2) (t : nat)
      (ks : list nat) (a : Vec2) :
  fst (fold_left (fun acc k => vadd acc (vscale (nth k w 0) (draw k t))) ks a)
  = fold_left (fun acc k => acc + nth k w 0 * fst (draw k t)) ks (fst a) /\
  snd (fold_left (fun acc k => vadd acc (vscale (nth k w 0) (draw k t))) ks a)
  = fold_left (fun acc k => acc + nth k w 0 * snd (draw k t)) ks (snd a).
Proof.
  revert a. induction ks as [|k ks IH]; intros a; [split; reflexivity|].
  cbn [fold_left]. apply IH.
Qed.

(** With weights on the simplex, every entry of the weighted noise lies
    between the bounds of the draw. *)
Lemma weighted_noise_bounded (self : MPPIControllerForDifferentialDrive)
      (w : list R) (draw : nat -> nat -> Vec2) (lo hi : R) :
  length w = Z.to_nat (K self) ->
  Forall (fun wk => 0 <= wk) w ->
  sum_list w = 1 ->
  draw_within draw lo hi ->
  forall j, (j < length (weighted_noise self w draw))%nat ->
            components_within lo hi (nth j (weighted_noise self w draw) vzero).
Proof.
  intros Hlen Hnn Hsum Hdraw j Hj.
  unfold weighted_noise in *. rewrite length_map in Hj.
  unfold range at 2. unfold range in Hj. rewrite length_seq in Hj.
  rewrite nth_map_seq by exact Hj.
  set (t := j).
  destruct (fst_weighted_fold w draw t (range (K self)) vzero) as [Hf Hs].
  unfold components_within. rewrite Hf, Hs. cbn [fst snd vzero].
  unfold range. rewrite <- Hlen.
  assert (Hwf : forall k, 0 <= nth k w 0).
  { intros k. destruct (Nat.lt_ge_cases k (length w)) as [Hk|Hk].
    - rewrite Forall_forall in Hnn. apply Hnn, nth_In, Hk.
    - rewrite nth_overflow by exact Hk. lra. }
  assert (HW : fold_left (fun acc k => acc + nth k w 0) (seq 0 (length w)) 0 = 1).
  { etransitivity; [exact (fold_left_seq_nth Rplus w [] w 0 eq_refl)|].
    exact Hsum. }
  pose proof (weighted_sum_bounds (fun k => nth k w 0) (fun k => fst (draw k t))
                lo hi Hwf (fun k => proj1 (Hdraw k t)) (length w) 0%nat 0 0) as B1.
  pose proof (weighted_sum_bounds (fun k => nth k w 0) (fun k => snd (draw k t))
                lo hi Hwf (fun k => proj2 (Hdraw k t)) (length w) 0%nat 0 0) as B2.
  cbv beta in B1, B2. rewrite HW in B1, B2. lra.
Qed.

(** X14: on a well configured solver the smoothed perturbation is
    computed, has one entry per horizon step, and each of its components
    lies between the smallest and the largest component of the noise
    draw: one call moves no control further than the noise reaches. *)
Theorem X14_perturbation_within_noise_range
        (self : MPPIControllerForDifferentialDrive)
        (draw : nat -> nat -> Vec2) (x0 : Vec3) (u : list Vec2)
        (lo hi : R) :
  well_configured self ->
  length u = Z.to_nat (T self) ->
  draw_within draw lo hi ->
  exists costs v w_epsilon,
    smoothed_perturbation self draw x0 u = Ok (costs, v, w_epsilon) /\
    length w_epsilon = Z.to_nat (T self) /\
    Forall (components_within lo hi) w_epsilon.
Proof.
  intros Hwf Hu Hdraw.
  destruct (smoothed_perturbation_ok self Hwf draw x0 u Hu)
    as (costs & v & w & w_eps & Hsp & Hw & Hc & Hf & Hlen).
  pose proof Hwf as (HT & HK & Hlam & _).
  destruct (weights_simplex self costs w) as (Lw & Hnn & Hsum);
    [destruct costs; [simpl in Hc; lia | discriminate] | lia | exact Hlam
     | exact Hw |].
  destruct (moving_average_bounded (weighted_noise self w draw) lo hi)
    as (out & Hout & Lout & Bout).
  { rewrite length_weighted_noise. lia. }
  { apply weighted_noise_bounded; try assumption. congruence. }
  rewrite Hf in Hout. injection Hout as <-.
  exists costs, v, w_eps. split; [exact Hsp|]. split; [exact Hlen|].
  apply Forall_forall. intros x Hx.
  destruct (In_nth w_eps x vzero Hx) as (k & Hk & <-).
  apply Bout. now rewrite <- Lout.
Qed.

Lemma X14_perturbation_witness :
  exists costs v w_epsilon,
    smoothed_perturbation (main_controller 10 50 false)
                          (draw_step (1, 0) (0, 0)) (0, 0, 0)
                          (repeat vzero 10) = Ok (costs, v, w_epsilon) /\
    length w_epsilon = 10%nat /\
    Forall (components_within 0 1) w_epsilon.
Proof.
  apply (X14_perturbation_within_noise_range
           (main_controller 10 50 false) (draw_step (1, 0) (0, 0)) (0, 0, 0)
           (repeat vzero 10) 0 1).
  - apply main_controller_wf. lia.
  - reflexivity.
  - intros k [|t]; cbn [draw_step fst snd]; lra.
Defined.


Lemma X13_rollout_controls_witness :
  exists costs v w_epsilon,
    smoothed_perturbation (main_controller 10 50 false)
                          (draw_step (5, 0) (0, -7)) (0, 0, 0)
                          (repeat vzero 10) = Ok (costs, v, w_epsilon) /\
    length costs = 50%nat /\
    length v = 50%nat /\
    Forall (fun vk => length vk = 10%nat /\
                      Forall (within_limits (main_controller 10 50 false)) vk)
           v.
Proof.
  destruct (smoothed_perturbation_ok
              (main_controller 10 50 false)
              (main_controller_wf 50 false ltac:(lia))
              (draw_step (5, 0) (0, -7)) (0, 0, 0) (repeat vzero 10) eq_refl)
    as (costs & v & w & w_eps & Hsp & _).
  exists costs, v, w_eps. split; [exact Hsp|].
  apply (X13_rollout_controls_saturated
           (main_controller 10 50 false) (draw_step (5, 0) (0, -7)) (0, 0, 0)
           (repeat vzero 10) costs v w_eps);
    [simpl; lra | simpl; lra | exact Hsp].
Defined.

(** ** Calls of the solver, continued *)

Lemma length_shift_left (a : list Vec2) :
  a <> [] -> length (shift_left a) = length a.
Proof.
  intros Hne. unfold shift_left. rewrite length_app.
  destruct a; [congruence | simpl; lia].
Qed.




Lemma short_weights_IndexError
      (self : MPPIControllerForDifferentialDrive)
      (draw : nat -> nat -> Vec2) (x0 : Vec3) (h : heap) :
  (1 <= K self)%Z ->
  (1 <= T self)%Z ->
  dim_u self = 2%nat ->
  shape0 (Sigma self) = 2%nat ->
  shape1 (Sigma self) = 2%nat ->
  (length (stage_cost_weight self) < 3)%nat ->
  calc_control_input self draw x0 h = Raise IndexError.
Proof.
  intros HK HT Hdim H0 H1 Hw.
  assert (Hc : forall x, _c self x = Raise IndexError).
  { intros [[x y] yaw]. unfold _c. destruct (goal self) as [[gx gy] gyaw].
    destruct (stage_cost_weight self) as [|a [|b [|c l]]]; try reflexivity.
    simpl in Hw. lia. }
  assert (Hsp : smoothed_perturbation self draw x0 (read h (u_prev self))
                = Raise IndexError).
  { unfold smoothed_perturbation, np_zeros1, _calc_epsilon.
    destruct (Z.ltb_spec (K self) 0) as [?|_]; [lia|].
    destruct (Z.ltb_spec (T self) 0) as [?|_]; [lia|].
    rewrite H0, H1, Hdim. cbn [Nat.eqb negb orb Nat.ltb Nat.leb bind].
    unfold rollouts, range.
    destruct (Z.to_nat (K self)) as [|nk] eqn:HnK; [lia|].
    cbn [seq for_each]. unfold rollout at 1.
    destruct (Z.to_nat (T self)) as [|nt] eqn:HnT; [lia|].
    cbn [seq for_each]. unfold rollout_step at 1.
    destruct (getitem (read h (u_prev self)) (1 - 1)) as [ut|e] eqn:Hget.
    - cbn [bind]. rewrite Hc. reflexivity.
    - unfold getitem in Hget.
      destruct (nth_error _ _); [discriminate|].
      injection Hget as <-. reflexivity. }
  unfold calc_control_input. rewrite Hsp. reflexivity.
Qed.

(** X16: with at least one sample and one horizon step and a covariance
    of the right shape, a stage cost weight vector with fewer than three
    entries makes every call raise [IndexError], whatever the buffer,
    the draw and the observed state. *)
Theorem X16_short_weights_raise_IndexError
        (self : MPPIControllerForDifferentialDrive)
        (draw : nat -> nat -> Vec2) (x0 : Vec3) (h : heap) :
  (1 <= K self)%Z ->
  (1 <= T self)%Z ->
  dim_u self = 2%nat ->
  shape0 (Sigma self) = 2%nat ->
  shape1 (Sigma self) = 2%nat ->
  (length (stage_cost_weight self) < 3)%nat ->
  calc_control_input self draw x0 h = Raise IndexError.
Proof. apply short_weights_IndexError. Qed.

Lemma X16_short_weights_witness :
  calc_control_input
    (mkController 3 2 10 50 0.05 100 0.98 (100 * (1 - 0.98))
                  (matrix2 0.075 0 0 2) [50; 50] [50; 50; 1] false false
                  (0.1 * 2) 0.5 0.6 0.8 2 2 (15, 5, 0) [] 1.2 0%nat)
    (draw_step (1, 0) (0, 0)) (0, 0, 0) [repeat vzero 10]
  = Raise IndexError.
Proof.
  apply X16_short_weights_raise_IndexError; simpl; try reflexivity; lia.
Defined.

(** ** The simulation loop *)

Lemma triangle_sqrt (a b c d : R) :
  sqrt ((a + c) ^ 2 + (b + d) ^ 2)
  <= sqrt (a ^ 2 + b ^ 2) + sqrt (c ^ 2 + d ^ 2).
Proof.
  set (p := sqrt (a ^ 2 + b ^ 2)). set (q := sqrt (c ^ 2 + d ^ 2)).
  assert (Hp0 : 0 <= p) by apply sqrt_pos.
  assert (Hq0 : 0 <= q) by apply sqrt_pos.
  assert (Hpp : p * p = a * a + b * b).
  { unfold p. rewrite sqrt_sqrt; [ring|].
    apply Rplus_le_le_0_compat; apply pow2_ge_0. }
  assert (Hqq : q * q = c * c + d * d).
  { unfold q. rewrite sqrt_sqrt; [ring|].
    apply Rplus_le_le_0_compat; apply pow2_ge_0. }
  apply sqrt_le; [lra|].
  assert (Hcs : (a * c + b * d) * (a * c + b * d) <= (p * q) * (p * q)).
  { replace ((p * q) * (p * q)) with ((p * p) * (q * q)) by ring.
    rewrite Hpp, Hqq.
    pose proof (Rle_0_sqr (a * d - b * c)) as Hsq. unfold Rsqr in Hsq.
    replace ((a * a + b * b) * (c * c + d * d))
      with ((a * c + b * d) * (a * c + b * d)
            + (a * d - b * c) * (a * d - b * c)) by ring.
    lra. }
  assert (Hup : a * c + b * d <= p * q).
  { assert (0 <= p * q) by (apply Rmult_le_pos; assumption).
    destruct (Rle_dec (a * c + b * d) (p * q)) as [Hle|Hgt]; [exact Hle|].
    exfalso. apply Rnot_le_lt in Hgt.
    assert ((p * q) * (p * q) < (a * c + b * d) * (a * c + b * d)).
    { apply Rmult_le_0_lt_compat; lra. }
    lra. }
  replace ((a + c) ^ 2 + (b + d) ^ 2)
    with ((a * a + b * b) + 2 * (a * c + b * d) + (c * c + d * d)) by ring.
  rewrite <- Hpp, <- Hqq. lra.
Qed.

Lemma distance_triangle (a b c : Vec3) :
  Simulation.distance a c
  <= Simulation.distance a b + Simulation.distance b c.
Proof.
  destruct a as [[ax ay] ath], b as [[bx by_] bth], c as [[cx cy] cth].
  unfold Simulation.distance.
  replace (ax - cx) with ((ax - bx) + (bx - cx)) by ring.
  replace (ay - cy) with ((ay - by_) + (by_ - cy)) by ring.
  apply triangle_sqrt.
Qed.

Lemma distance_refl (a : Vec3) : Simulation.distance a a = 0.
Proof.
  destruct a as [[ax ay] ath]. unfold Simulation.distance.
  replace ((ax - ax) ^ 2 + (ay - ay) ^ 2) with 0 by ring. apply sqrt_0.
Qed.

(** One [update] of the plant with a non-zero step moves the position by
    at most [max_linear_vel * |dt|] and keeps the limits. *)
Lemma plant_update_step (robot : DifferentialDriveRobot.t) (u : Vec2)
      (dt : R) :
  dt <> 0 ->
  0 <= DifferentialDriveRobot.max_linear_vel robot ->
  Simulation.distance
    (DifferentialDriveRobot.state (DifferentialDriveRobot.update robot u dt))
    (DifferentialDriveRobot.state robot)
  <= DifferentialDriveRobot.max_linear_vel robot * Rabs dt /\
  DifferentialDriveRobot.max_linear_vel (DifferentialDriveRobot.update robot u dt)
  = DifferentialDriveRobot.max_linear_vel robot.
Proof.
  intros Hdt Hl. unfold DifferentialDriveRobot.update.
  destruct (DifferentialDriveRobot.state robot) as [[x y] yaw].
  destruct (Req_dec_T dt 0) as [?|_]; [contradiction|].
  cbn [DifferentialDriveRobot.state DifferentialDriveRobot.max_linear_vel].
  split; [|reflexivity].
  unfold Simulation.distance.
  set (vmax := DifferentialDriveRobot.max_linear_vel robot) in *.
  set (c := np_clip (fst u) (- vmax) vmax).
  pose proof (np_clip_sqr (fst u) vmax Hl) as Hsq. fold c in Hsq.
  pose proof (cos_sin_unit yaw) as Hcs.
  apply sqrt_le.
  - apply Rmult_le_pos; [exact Hl | apply Rabs_pos].
  - replace ((x + c * cos yaw * dt - x) ^ 2 + (y + c * sin yaw * dt - y) ^ 2)
      with ((c * c) * (dt * dt) * (cos yaw * cos yaw + sin yaw * sin yaw))
      by ring.
    rewrite Hcs, Rmult_1_r.
    replace (vmax * Rabs dt * (vmax * Rabs dt))
      with ((vmax * vmax) * (Rabs dt * Rabs dt)) by ring.
    replace (Rabs dt * Rabs dt) with (dt * dt)
      by (unfold Rabs; destruct (Rcase_abs dt); ring).
    apply Rmult_le_compat_r; [apply Rle_0_sqr | exact Hsq].
Qed.

(** The loop on a well configured solver: no exception, no [IndexError]
    break, and a bounded displacement of the robot. *)
Lemma simulation_loop_ok (mppi : MPPIControllerForDifferentialDrive)
      (dt : R) (draws : list (nat -> nat -> Vec2)) :
  well_configured mppi ->
  dt <> 0 ->
  forall i robot h,
    buffer_ok mppi h ->
    0 <= DifferentialDriveRobot.max_linear_vel robot ->
    exists robot' e,
      Simulation.simulation_loop mppi dt draws i robot h = Ok (robot', e) /\
      (e = Simulation.Exhausted \/
       exists j, e = Simulation.GoalReached j /\
                 (i <= j < i + length draws)%nat) /\
      Simulation.distance (DifferentialDriveRobot.state robot')
                          (DifferentialDriveRobot.state robot)
      <= INR (length draws)
         * (DifferentialDriveRobot.max_linear_vel robot * Rabs dt).
Proof.
  intros Hwf Hdt. induction draws as [|draw rest IH]; intros i robot h Hbuf Hl.
  - exists robot, Simulation.Exhausted. split; [reflexivity|].
    split; [now left|]. rewrite distance_refl. simpl. lra.
  - cbn [Simulation.simulation_loop].
    destruct (calc_control_input_spec mppi Hwf draw
                (Simulation.get_state robot) h Hbuf)
      as (costs & v & w & w_eps & updated & out & h' &
          _ & _ & _ & _ & _ & Hlen & Hcall & _ & _ & Hread).
    rewrite Hcall.
    assert (Hbuf' : buffer_ok mppi h').
    { unfold buffer_ok. rewrite Hread, length_shift_left.
      - destruct (visualize_optimal_traj mppi); [rewrite length_map|];
          exact Hlen.
      - destruct Hwf as (HT & _). intros Hnil.
        apply (f_equal (@length Vec2)) in Hnil.
        destruct (visualize_optimal_traj mppi);
          [rewrite length_map in Hnil|]; rewrite Hlen in Hnil;
          simpl in Hnil; lia. }
    set (robot1 := DifferentialDriveRobot.update robot
                     (read_view h' (action out)) dt).
    destruct (plant_update_step robot (read_view h' (action out)) dt Hdt Hl)
      as [Hstep Hsame].
    fold robot1 in Hstep, Hsame.
    destruct (Simulation.get_state robot) as [[x y] yaw].
    destruct (goal mppi) as [[gx gy] gyaw].
    assert (Hn : INR (length (draw :: rest)) = INR (length rest) + 1)
      by (cbn [length]; apply S_INR).
    destruct (Rlt_dec _ 0.5) as [Hgoal|Hgoal].
    + exists robot1, (Simulation.GoalReached i). split; [reflexivity|].
      split; [right; exists i; split; [reflexivity | simpl; lia]|].
      rewrite Hn.
      assert (0 <= INR (length rest)) by apply pos_INR.
      assert (0 <= DifferentialDriveRobot.max_linear_vel robot * Rabs dt)
        by (apply Rmult_le_pos; [exact Hl | apply Rabs_pos]).
      assert (0 <= INR (length rest)
                   * (DifferentialDriveRobot.max_linear_vel robot * Rabs dt))
        by (apply Rmult_le_pos; assumption).
      lra.
    + destruct (IH (Datatypes.S i) robot1 h' Hbuf') as (robot' & e & Hrun & He & Hd).
      { now rewrite Hsame. }
      exists robot', e. split; [exact Hrun|]. split.
      * destruct He as [He | (j & He & Hj)]; [now left|].
        right. exists j. split; [exact He | simpl; lia].
      * rewrite Hsame in Hd. rewrite Hn.
        pose proof (distance_triangle (DifferentialDriveRobot.state robot')
                      (DifferentialDriveRobot.state robot1)
                      (DifferentialDriveRobot.state robot)) as Htri.
        lra.
Qed.

(** X17: on a well configured solver with a buffer of the right shape,
    the loop of the main cell never raises and never takes the
    [IndexError] exit: it runs out of iterations or stops at the goal
    test of one of its iterations. *)
Theorem X17_simulation_loop_runs
        (mppi : MPPIControllerForDifferentialDrive) (dt : R)
        (draws : list (nat -> nat -> Vec2)) (i : nat)
        (robot : DifferentialDriveRobot.t) (h : heap) :
  well_configured mppi ->
  buffer_ok mppi h ->
  dt <> 0 ->
  0 <= DifferentialDriveRobot.max_linear_vel robot ->
  exists robot' e,
    Simulation.simulation_loop mppi dt draws i robot h = Ok (robot', e) /\
    (e = Simulation.Exhausted \/
     exists j, e = Simulation.GoalReached j /\ (i <= j < i + length draws)%nat).
Proof.
  intros Hwf Hbuf Hdt Hl.
  destruct (simulation_loop_ok mppi dt draws Hwf Hdt i robot h Hbuf Hl)
    as (robot' & e & Hrun & He & _).
  exists robot', e. auto.
Qed.

(** X18: during the loop the robot moves at most
    [max_linear_vel * |delta_t|] per iteration: at the end its position
    is within (number of iterations) times that step of where it
    started. *)
Theorem X18_simulation_displacement_bounded
        (mppi : MPPIControllerForDifferentialDrive) (dt : R)
        (draws : list (nat -> nat -> Vec2)) (i : nat)
        (robot : DifferentialDriveRobot.t) (h : heap) :
  well_configured mppi ->
  buffer_ok mppi h ->
  dt <> 0 ->
  0 <= DifferentialDriveRobot.max_linear_vel robot ->
  exists robot' e,
    Simulation.simulation_loop mppi dt draws i robot h = Ok (robot', e) /\
    Simulation.distance (DifferentialDriveRobot.state robot')
                        (DifferentialDriveRobot.state robot)
    <= INR (length draws)
       * (DifferentialDriveRobot.max_linear_vel robot * Rabs dt).
Proof.
  intros Hwf Hbuf Hdt Hl.
  destruct (simulation_loop_ok mppi dt draws Hwf Hdt i robot h Hbuf Hl)
    as (robot' & e & Hrun & _ & Hd).
  exists robot', e. auto.
Qed.

(** X19: the loop catches [IndexError] only. A solver with fewer than
    three stage cost weights makes the loop end at its first iteration
    without an exception and without moving the robot, while a covariance
    of the wrong shape or a sample count that is not positive makes the
    loop raise [ValueError]. *)
Theorem X19_simulation_catches_IndexError_only
        (mppi : MPPIControllerForDifferentialDrive) (dt : R)
        (draw : nat -> nat -> Vec2) (rest : list (nat -> nat -> Vec2))
        (i : nat) (robot : DifferentialDriveRobot.t) (h : heap) :
  (0 <= T mppi)%Z ->
  dim_u mppi = 2%nat ->
  ((1 <= K mppi)%Z -> (1 <= T mppi)%Z ->
   shape0 (Sigma mppi) = 2%nat -> shape1 (Sigma mppi) = 2%nat ->
   (length (stage_cost_weight mppi) < 3)%nat ->
   Simulation.simulation_loop mppi dt (draw :: rest) i robot h
   = Ok (robot, Simulation.IndexErrorBreak i)) /\
  (shape0 (Sigma mppi) <> shape1 (Sigma mppi) \/
   shape0 (Sigma mppi) <> 2%nat \/
   (K mppi <= 0)%Z ->
   Simulation.simulation_loop mppi dt (draw :: rest) i robot h
   = Raise ValueError).
Proof.
  intros HT Hdim. split.
  - intros HK HT1 H0 H1 Hw. cbn [Simulation.simulation_loop].
    rewrite (short_weights_IndexError mppi draw _ h HK HT1 Hdim H0 H1 Hw).
    reflexivity.
  - intros Hbad. cbn [Simulation.simulation_loop].
    rewrite (calc_control_input_rejects mppi draw _ h HT Hdim Hbad).
    reflexivity.
Qed.

Lemma X17_simulation_loop_witness :
  exists robot' e,
    Simulation.simulation_loop
      (main_controller 10 50 true) 0.1
      [draw_step (1, 0) (0, 0); draw_step (0, 1) (0, 0)] 0
      (DifferentialDriveRobot.mkRobot 2 2 0.05 (0, 0, 0))
      [repeat vzero 10] = Ok (robot', e) /\
    (e = Simulation.Exhausted \/
     exists j, e = Simulation.GoalReached j /\ (0 <= j < 0 + 2)%nat).
Proof.
  apply (X17_simulation_loop_runs
           (main_controller 10 50 true) 0.1
           [draw_step (1, 0) (0, 0); draw_step (0, 1) (0, 0)] 0
           (DifferentialDriveRobot.mkRobot 2 2 0.05 (0, 0, 0))
           [repeat vzero 10]).
  - apply main_controller_wf. lia.
  - apply main_buffer_ok.
  - lra.
  - simpl. lra.
Defined.

Lemma X18_simulation_displacement_witness :
  exists robot' e,
    Simulation.simulation_loop
      (main_controller 10 50 true) 0.1
      [draw_step (1, 0) (0, 0); draw_step (0, 1) (0, 0)] 0
      (DifferentialDriveRobot.mkRobot 2 2 0.05 (0, 0, 0))
      [repeat vzero 10] = Ok (robot', e) /\
    Simulation.distance (DifferentialDriveRobot.state robot') (0, 0, 0)
    <= INR 2 * (2 * Rabs 0.1).
Proof.
  apply (X18_simulation_displacement_bounded
           (main_controller 10 50 true) 0.1
           [draw_step (1, 0) (0, 0); draw_step (0, 1) (0, 0)] 0
           (DifferentialDriveRobot.mkRobot 2 2 0.05 (0, 0, 0))
           [repeat vzero 10]).
  - apply main_controller_wf. lia.
  - apply main_buffer_ok.
  - lra.
  - simpl. lra.
Defined.

Lemma X19_simulation_witness :
  Simulation.simulation_loop
    (main_controller 10 0 true) 0.1 [draw_step (1, 0) (0, 0)] 0
    (DifferentialDriveRobot.mkRobot 2 2 0.05 (0, 0, 0)) [repeat vzero 10]
  = Raise ValueError.
Proof.
  apply (proj2 (X19_simulation_catches_IndexError_only
                  (main_controller 10 0 true) 0.1 (draw_step (1, 0) (0, 0)) []
                  0 (DifferentialDriveRobot.mkRobot 2 2 0.05 (0, 0, 0))
                  [repeat vzero 10] ltac:(simpl; lia) eq_refl)).
  right. right. simpl. lia.
Defined.

(** ** Construction *)

Lemma read_app_old (h : heap) (a : list Vec2) (l : loc) :
  (l < length h)%nat -> read (h ++ [a]) l = read h l.
Proof. intros Hl. unfold read. now rewrite app_nth1. Qed.

Lemma read_app_new (h : heap) (a : list Vec2) :
  read (h ++ [a]) (length h) = a.
Proof. unfold read. now rewrite app_nth2, Nat.sub_diag by lia. Qed.

(** X20: from a configuration with a horizon of at least 10, at least
    one sample, a non-zero [param_lambda], an invertible 2 x 2 covariance
    and at least three weights per cost, the constructor builds a solver
    with a fresh buffer of [T] zero rows, leaves the arrays that existed
    untouched, and every first call on that solver succeeds. *)
Theorem X20_constructed_solver_runs (c : Config) (h : heap)
        (draw : nat -> nat -> Vec2) (x0 : Vec3) :
  config_ok c ->
  exists self h' out h'',
    __init__ c h = Ok (self, h') /\
    u_prev self = length h /\
    read h' (u_prev self) = repeat vzero (Z.to_nat (cfg_horizon_step_T c)) /\
    (forall l, (l < length h)%nat -> read h' l = read h l) /\
    param_gamma self = cfg_param_lambda c * (1 - cfg_param_alpha c) /\
    calc_control_input self draw x0 h' = Ok (out, h'').
Proof.
  intros (HT & HK & Hlam & H0 & H1 & Hdet & Hs & Ht).
  unfold __init__, np_zeros2.
  destruct (Z.ltb_spec (cfg_horizon_step_T c) 0) as [?|_]; [lia|].
  cbn [bind alloc].
  match goal with
  | |- exists self h' out h'', Ok (?s, ?hp) = _ /\ _ =>
      set (self := s); set (h' := hp)
  end.
  assert (Hwf : well_configured self)
    by (unfold well_configured, self; cbn; repeat split; assumption).
  assert (Hbuf : buffer_ok self h').
  { unfold buffer_ok, self, h'. cbn [u_prev T].
    now rewrite read_app_new, repeat_length. }
  destruct (calc_control_input_spec self Hwf draw x0 h' Hbuf)
    as (_ & _ & _ & _ & _ & out & h'' & _ & _ & _ & _ & _ & _ & Hcall & _).
  exists self, h', out, h''.
  split; [reflexivity|]. split; [reflexivity|].
  split; [apply read_app_new|].
  split; [intros l Hl; now apply read_app_old|].
  split; [reflexivity | exact Hcall].
Qed.

Lemma X20_constructed_solver_witness :
  exists self h' out h'',
    __init__ (main_config 10 50 true) [] = Ok (self, h') /\
    u_prev self = 0%nat /\
    read h' (u_prev self) = repeat vzero 10 /\
    (forall l, (l < 0)%nat -> read h' l = read [] l) /\
    param_gamma self = 100 * (1 - 0.98) /\
    calc_control_input self (draw_step (1, 0) (0, 0)) (0, 0, 0) h'
    = Ok (out, h'').
Proof.
  apply (X20_constructed_solver_runs (main_config 10 50 true) []
           (draw_step (1, 0) (0, 0)) (0, 0, 0)).
  unfold config_ok. simpl. repeat split; try lia; lra.
Defined.

(** ** Footprint geometry *)

(** X21: [_affine_transform] raises [AttributeError] on lists of
    different lengths and [IndexError] on two empty lists; on two lists
    of the same positive length it returns two lists with one more
    entry, the last point repeating the first, and every point keeps its
    distance to the origin as its distance to the translation. *)
Theorem X21_affine_transform (xlist ylist : list R) (angle : R)
        (translation : R * R) :
  (length xlist <> length ylist ->
   _affine_transform xlist ylist angle translation = Raise AttributeError) /\
  (xlist = [] -> ylist = [] ->
   _affine_transform xlist ylist angle translation = Raise IndexError) /\
  (length xlist = length ylist -> xlist <> [] ->
   exists tx ty,
     _affine_transform xlist ylist angle translation = Ok (tx, ty) /\
     length tx = Datatypes.S (length xlist) /\
     length ty = Datatypes.S (length xlist) /\
     nth (length xlist) tx 0 = nth 0 tx 0 /\
     nth (length xlist) ty 0 = nth 0 ty 0 /\
     forall i, (i < length xlist)%nat ->
       (nth i tx 0 - fst translation) ^ 2 + (nth i ty 0 - snd translation) ^ 2
       = nth i xlist 0 ^ 2 + nth i ylist 0 ^ 2).
Proof.
  unfold _affine_transform. repeat split.
  - intros Hne.
    destruct (Nat.eqb_spec (length xlist) (length ylist)); [contradiction|].
    reflexivity.
  - intros -> ->. reflexivity.
  - intros Hlen Hne. rewrite Hlen, Nat.eqb_refl. cbn [negb].
    rewrite <- Hlen.
    set (fx := fun i => nth i xlist 0 * cos angle - nth i ylist 0 * sin angle
                        + fst translation).
    set (fy := fun i => nth i xlist 0 * sin angle + nth i ylist 0 * cos angle
                        + snd translation).
    assert (Hpos : (0 < length xlist)%nat)
      by (destruct xlist; [congruence | simpl; lia]).
    rewrite (getitem_ok (map fx _) 0 0), (getitem_ok (map fy _) 0 0)
      by (rewrite length_map, length_seq; exact Hpos).
    cbn [bind]. eexists _, _. split; [reflexivity|].
    rewrite !length_app, !length_map, !length_seq. cbn [length].
    split; [lia|]. split; [lia|].
    split.
    { rewrite app_nth2 by (rewrite length_map, length_seq; lia).
      rewrite length_map, length_seq, Nat.sub_diag. cbn [nth].
      rewrite app_nth1 by (rewrite length_map, length_seq; lia).
      reflexivity. }
    split.
    { rewrite app_nth2 by (rewrite length_map, length_seq; lia).
      rewrite length_map, length_seq, Nat.sub_diag. cbn [nth].
      rewrite app_nth1 by (rewrite length_map, length_seq; lia).
      reflexivity. }
    intros i Hi.
    rewrite !app_nth1 by (rewrite length_map, length_seq; lia).
    rewrite !nth_map_seq by exact Hi. unfold fx, fy.
    pose proof (cos_sin_unit angle) as Hcs.
    replace ((nth i xlist 0 * cos angle - nth i ylist 0 * sin angle
              + fst translation - fst translation) ^ 2
             + (nth i xlist 0 * sin angle + nth i ylist 0 * cos angle
                + snd translation - snd translation) ^ 2)
      with ((nth i xlist 0 ^ 2 + nth i ylist 0 ^ 2)
            * (cos angle * cos angle + sin angle * sin angle)) by ring.
    rewrite Hcs. ring.
Qed.

Lemma X21_affine_transform_witness :
  _affine_transform [1; 2] [3] 0 (0, 0) = Raise AttributeError /\
  _affine_transform [] [] 0 (0, 0) = Raise IndexError /\
  exists tx ty,
    _affine_transform [1; 2] [3; 4] 0 (5, 6) = Ok (tx, ty) /\
    length tx = 3%nat /\ length ty = 3%nat /\
    nth 2 tx 0 = nth 0 tx 0 /\ nth 2 ty 0 = nth 0 ty 0 /\
    forall i, (i < 2)%nat ->
      (nth i tx 0 - 5) ^ 2 + (nth i ty 0 - 6) ^ 2
      = nth i [1; 2] 0 ^ 2 + nth i [3; 4] 0 ^ 2.
Proof.
  split; [|split].
  - apply (proj1 (X21_affine_transform [1; 2] [3] 0 (0, 0))). simpl. lia.
  - now apply (proj1 (proj2 (X21_affine_transform [] [] 0 (0, 0)))).
  - apply (proj2 (proj2 (X21_affine_transform [1; 2] [3; 4] 0 (5, 6)))).
    + reflexivity.
    + discriminate.
Defined.

Lemma collided_result (b : bool) :
  (if b then Ok 1 else Ok 0) = (Ok 1 : result R) <-> b = true.
Proof.
  destruct b; split; intros H; try reflexivity; try discriminate.
  injection H as H. lra.
Qed.

(** X22: the collision test never raises and answers 0.0 or 1.0; it
    answers 0.0 when every obstacle has radius zero (in particular when
    there is no obstacle), a point on the boundary of an obstacle not
    being inside it. *)
Theorem X22_is_collided_total (self : MPPIControllerForDifferentialDrive)
        (x_t : Vec3) :
  (_is_collided self x_t = Ok 0 \/ _is_collided self x_t = Ok 1) /\
  ((forall obs, In obs (obstacle_circles self) -> snd obs = 0) ->
   _is_collided self x_t = Ok 0).
Proof.
  destruct x_t as [[x y] yaw].
  unfold _is_collided, _affine_transform.
  cbn [length Nat.eqb negb seq map nth getitem nth_error bind app fst snd].
  split.
  - match goal with
    | |- (if ?c then _ else _) = _ \/ _ => destruct c; [right | left]; reflexivity
    end.
  - intros Hzero.
    match goal with
    | |- (if ?c then _ else _) = _ => assert (Hc : c = false); [|now rewrite Hc]
    end.
    apply existsb_false. intros [[ox oy] r] Hin.
    pose proof (Hzero _ Hin) as Hr. cbn [snd] in Hr. subst r.
    apply existsb_false. intros p _. apply Rltb_false.
    replace (0 ^ 2) with 0 by ring.
    apply Rplus_le_le_0_compat; apply pow2_ge_0.
Qed.

(** X23: obstacles add up: with the obstacles of two lists together the
    test answers 1.0 exactly when it does so for one of the two lists. *)
Theorem X23_is_collided_union (self : MPPIControllerForDifferentialDrive)
        (l1 l2 : list Vec3) (margin : R) (x_t : Vec3) :
  _is_collided (with_obstacles self (l1 ++ l2) margin) x_t = Ok 1 <->
  _is_collided (with_obstacles self l1 margin) x_t = Ok 1 \/
  _is_collided (with_obstacles self l2 margin) x_t = Ok 1.
Proof.
  destruct x_t as [[x y] yaw].
  unfold _is_collided, _affine_transform.
  cbn [length Nat.eqb negb seq map nth getitem nth_error bind app fst snd
       with_obstacles obstacle_circles robot_w robot_l
       collision_safety_margin_rate].
  rewrite existsb_app, !collided_result. apply orb_true_iff.
Qed.

Lemma existsb_map_ext {A B : Type} (F1 : B -> bool) (F2 : A -> bool)
      (g : A -> B) (l : list A) :
  (forall a, F1 (g a) = F2 a) -> existsb F1 (map g l) = existsb F2 l.
Proof.
  intros H. induction l as [|a l IH]; [reflexivity|].
  simpl. now rewrite H, IH.
Qed.

(** X24: the test depends on relative positions only: moving the pose
    and every obstacle by the same offset does not change its answer. *)
Theorem X24_is_collided_translation
        (self : MPPIControllerForDifferentialDrive)
        (obstacles : list Vec3) (margin dx dy x y yaw : R) :
  _is_collided
    (with_obstacles self
       (map (fun obs : Vec3 =>
               let '(obs_x, obs_y, obs_r) := obs in
               (obs_x + dx, obs_y + dy, obs_r)) obstacles) margin)
    (x + dx, y + dy, yaw)
  = _is_collided (with_obstacles self obstacles margin) (x, y, yaw).
Proof.
  unfold _is_collided, _affine_transform.
  cbn [length Nat.eqb negb seq map nth getitem nth_error bind app fst snd
       with_obstacles obstacle_circles robot_w robot_l
       collision_safety_margin_rate].
  match goal with
  | |- (if ?c1 then _ else _) = (if ?c2 then _ else _) =>
      assert (Hc : c1 = c2); [|now rewrite Hc]
  end.
  apply existsb_map_ext. intros [[ox oy] r]. cbn [existsb].
  repeat (apply f_equal2; [f_equal; lra|]). reflexivity.
Qed.


Lemma X22_is_collided_witness :
  _is_collided (with_obstacles (main_controller 10 50 false) [(1, 2, 0)] 1.2)
               (1, 2, 0) = Ok 0.
Proof.
  apply (proj2 (X22_is_collided_total
                  (with_obstacles (main_controller 10 50 false) [(1, 2, 0)] 1.2)
                  (1, 2, 0))).
  intros obs [<- | []]. reflexivity.
Defined.

Ltac pick_point H n :=
  exists n; split;
  [simpl; tauto
  | cbn [nth]; etransitivity; [|exact H]; f_equal; lra].

Ltac pick_any H :=
  first [ pick_point H 0%nat | pick_point H 1%nat | pick_point H 2%nat
        | pick_point H 3%nat | pick_point H 4%nat | pick_point H 5%nat
        | pick_point H 6%nat | pick_point H 7%nat ].

(** X25: the key points of the footprint are symmetric about the pose:
    turning the heading by half a turn does not change the answer of the
    collision test. *)
Theorem X25_is_collided_half_turn
        (self : MPPIControllerForDifferentialDrive) (x y yaw : R) :
  _is_collided self (x, y, yaw + PI) = _is_collided self (x, y, yaw).
Proof.
  unfold _is_collided, _affine_transform.
  cbn [length Nat.eqb negb seq map nth getitem nth_error bind app fst snd].
  rewrite neg_cos, neg_sin.
  match goal with
  | |- (if ?c1 then _ else _) = (if ?c2 then _ else _) =>
      assert (Hc : c1 = c2); [|now rewrite Hc]
  end.
  apply eq_true_iff_eq. rewrite !existsb_exists.
  split; intros ([[ox oy] r] & Hin & Hpt); exists (ox, oy, r);
    (split; [exact Hin|]);
    apply existsb_exists in Hpt; destruct Hpt as (p & Hp & H);
    apply existsb_exists; simpl in Hp;
    repeat (destruct Hp as [Hp | Hp];
            [subst p; cbn [nth] in H; pick_any H|]);
    contradiction.
Qed.

(** ** Shapes of the returned trajectories *)

Lemma rollout_steps_length (self : MPPIControllerForDifferentialDrive)
      (u : list Vec2) (epsilon : nat -> nat -> Vec2) (k : nat)
      (ts : list nat) :
  forall x Sk vk x' Sk' vk',
    for_each (rollout_step self u epsilon k) (x, Sk, vk) ts
    = Ok (x', Sk', vk') ->
    length vk' = (length vk + length ts)%nat.
Proof.
  induction ts as [|t ts IH]; intros x Sk vk x' Sk' vk' Hrun.
  - simpl in Hrun. injection Hrun as <- <- <-. simpl. lia.
  - cbn [for_each] in Hrun. unfold rollout_step at 1 in Hrun.
    destruct (getitem u (t - 1)) as [ut|e]; [|discriminate]. cbn [bind] in Hrun.
    match type of Hrun with
    | context [_c self ?y] => destruct (_c self y) as [c|e]; [|discriminate]
    end.
    cbn [bind] in Hrun.
    destruct (np_linalg_inv (Sigma self)) as [M|e]; [|discriminate].
    cbn [bind] in Hrun.
    apply IH in Hrun. rewrite Hrun, length_app. simpl. lia.
Qed.

Lemma optimal_loop_length (self : MPPIControllerForDifferentialDrive)
      (u : loc) (ts : list nat) :
  forall x traj h x' traj' h',
    for_each (optimal_step self u) (x, traj, h) ts = Ok (x', traj', h') ->
    length traj' = (length traj + length ts)%nat.
Proof.
  induction ts as [|t ts IH]; intros x traj h x' traj' h' Hrun.
  - simpl in Hrun. injection Hrun as <- <- <-. simpl. lia.
  - cbn [for_each] in Hrun. unfold optimal_step at 1 in Hrun.
    destruct (getitem (read h u) t) as [ut|e]; [|discriminate].
    cbn [bind] in Hrun. apply IH in Hrun.
    rewrite Hrun, length_app. simpl. lia.
Qed.

Lemma length_sampled_traj (self : MPPIControllerForDifferentialDrive)
      (x0 : Vec3) (vk : list Vec2) :
  length (sampled_traj self x0 vk) = length vk.
Proof.
  unfold sampled_traj.
  assert (H : forall st,
             length (snd (fold_left
                            (fun st vkt =>
                               let x := _F self (fst st) (_g self vkt) in
                               (x, snd st ++ [x])) vk st))
             = (length (snd st) + length vk)%nat).
  { induction vk as [|a vk IH]; intros st; [simpl; lia|].
    cbn [fold_left]. rewrite IH. cbn [snd]. rewrite length_app. simpl. lia. }
  rewrite H. reflexivity.
Qed.

(** X26: whenever a call returns, the optimal trajectory it returns has
    one state per horizon step and the sampled trajectories are one per
    sample, each with one state per horizon step, whether the two
    diagnostics are switched on or off. *)
Theorem X26_trajectory_shapes (self : MPPIControllerForDifferentialDrive)
        (draw : nat -> nat -> Vec2) (x0 : Vec3) (h h' : heap)
        (out : Output) :
  calc_control_input self draw x0 h = Ok (out, h') ->
  length (optimal_traj out) = Z.to_nat (T self) /\
  length (sampled_traj_list out) = Z.to_nat (K self) /\
  Forall (fun traj => length traj = Z.to_nat (T self)) (sampled_traj_list out).
Proof.
  intros Hcall. unfold calc_control_input in Hcall.
  destruct (smoothed_perturbation self draw x0 (read h (u_prev self)))
    as [[[costs v] w_eps]|e] eqn:Hsp; [|discriminate].
  cbn [bind] in Hcall.
  assert (Hv : length v = Z.to_nat (K self) /\
               Forall (fun vk => length vk = Z.to_nat (T self)) v).
  { clear Hcall. unfold smoothed_perturbation in Hsp.
    destruct (np_zeros1 (K self)) as [?|e]; [|discriminate]. cbn [bind] in Hsp.
    destruct (_calc_epsilon _ _ _ _ draw) as [epsilon|e]; [|discriminate].
    cbn [bind] in Hsp.
    destruct (rollouts self (read h (u_prev self)) epsilon x0)
      as [[costs0 v0]|e] eqn:Hr; [|discriminate].
    cbn [bind] in Hsp.
    destruct (_compute_weights self costs0) as [w|e]; [|discriminate].
    cbn [bind] in Hsp.
    destruct (_moving_average_filter _ 10) as [o|e]; [|discriminate].
    cbn [bind] in Hsp. injection Hsp as <- <- <-.
    unfold rollouts in Hr.
    apply (rollouts_inv self _ epsilon x0 (range (K self))
             (fun vk => length vk = Z.to_nat (T self))) in Hr.
    - destruct Hr as (Hall & _ & Hlen).
      unfold range in Hlen. rewrite length_seq in Hlen. simpl in Hlen. auto.
    - intros k Sk vk Hk. unfold rollout in Hk.
      destruct (for_each (rollout_step self _ epsilon k) _ _)
        as [[[x Sk0] vk0]|e] eqn:Hsteps; [|discriminate].
      cbn [bind] in Hk.
      destruct (_phi self x) as [p|e]; [|discriminate].
      cbn [bind] in Hk. injection Hk as <- <-.
      apply rollout_steps_length in Hsteps.
      rewrite Hsteps, length_seq. reflexivity.
    - constructor. }
  destruct Hv as [HvK HvT].
  destruct (iadd _ w_eps) as [updated|e]; [|discriminate].
  cbn [bind] in Hcall.
  match type of Hcall with
  | (x <- ?opt ;; _) = _ =>
      destruct opt as [[traj h1]|e] eqn:Hopt; [|discriminate]
  end.
  cbn [bind] in Hcall.
  destruct (assign_init _ _) as [shifted|e]; [|discriminate].
  cbn [bind] in Hcall.
  destruct (neg_index _ 1) as [i|e]; [|discriminate]. cbn [bind] in Hcall.
  destruct (getitem _ i) as [lst|e]; [|discriminate]. cbn [bind] in Hcall.
  destruct (getitem _ 0) as [?|e]; [|discriminate]. cbn [bind] in Hcall.
  injection Hcall as <- _. cbn [optimal_traj sampled_traj_list].
  split.
  { destruct (visualize_optimal_traj self).
    - destruct (for_each (optimal_step self (u_prev self)) _ _)
        as [[[x tr] h2]|e] eqn:Hloop; [|discriminate].
      cbn [bind] in Hopt. injection Hopt as <- _.
      apply optimal_loop_length in Hloop.
      rewrite Hloop. unfold range. rewrite length_seq. reflexivity.
    - injection Hopt as <- _. apply repeat_length. }
  destruct (visualze_sampled_trajs self).
  - split; [now rewrite length_map|].
    apply Forall_map. apply Forall_forall. intros vk Hvk.
    rewrite length_sampled_traj.
    rewrite Forall_forall in HvT. now apply HvT.
  - split; [apply repeat_length|].
    apply Forall_forall. intros tr Htr. apply repeat_spec in Htr. subst tr.
    apply repeat_length.
Qed.

Lemma X26_trajectory_shapes_witness :
  exists out h',
    calc_control_input (main_controller 10 50 true) (draw_step (1, 0) (0, 0))
                       (0, 0, 0) [repeat vzero 10] = Ok (out, h') /\
    length (optimal_traj out) = 10%nat /\
    length (sampled_traj_list out) = 50%nat /\
    Forall (fun traj => length traj = 10%nat) (sampled_traj_list out).
Proof.
  destruct (calc_control_input_spec
              (main_controller 10 50 true)
              (main_controller_wf 50 true ltac:(lia))
              (draw_step (1, 0) (0, 0)) (0, 0, 0) [repeat vzero 10]
              (main_buffer_ok 50 true))
    as (_ & _ & _ & _ & _ & out & h' & _ & _ & _ & _ & _ & _ & Hcall & _).
  exists out, h'. split; [exact Hcall|].
  exact (X26_trajectory_shapes (main_controller 10 50 true)
           (draw_step (1, 0) (0, 0)) (0, 0, 0) [repeat vzero 10] h' out Hcall).
Defined.
